(** * seqkit scat: the directory watcher and its root coordinator

    A shallow embedding of [cmd/scat.go]: the per-root filesystem-event
    reactor ([NewFxWatcher]), its discovery-walk callback ([walkFunc]), its
    shutdown sweep and drain loop, and the coordinator ([scatCmd],
    [LaunchFxWatchers]).  Goroutine bodies are written as programs in a
    small state-and-outcome monad; everything a goroutine observes from the
    outside (the clock, [os.Stat], the notification library, the directory
    walker, the acknowledgments of streaming sessions) is read from a
    [World]. *)

From Stdlib Require Import ZArith Lia.
From stdpp Require Import gmap strings list fin_maps.

Local Open Scope Z_scope.

(** ** Machine integers and time *)

Definition min_int64 : Z := - 2 ^ 63.
Definition max_int64 : Z := 2 ^ 63 - 1.

(** Two's-complement wrap-around of Go's [int64] (and of [int] on 64-bit
    targets). *)
Definition wrap64 (z : Z) : Z := (z + 2 ^ 63) mod 2 ^ 64 - 2 ^ 63.

Definition sub64 (a b : Z) : Z := wrap64 (a - b).
Definition mul64 (a b : Z) : Z := wrap64 (a * b).

(** Instants are nanoseconds counted from the zero [time.Time]; a
    [time.Duration] is an [int64] count of nanoseconds, and [Time.Sub]
    saturates at the ends of that range. *)
Definition time_sub (t u : Z) : Z := Z.max min_int64 (Z.min max_int64 (t - u)).

(** ** Control signals *)

(** Modelled from the spec: the declaration of [SeqStreamCtrl] and of its
    constants is not part of [scat.go].  Section 3 of the specification
    gives the closed tag set: requests [Try] and [Quit], acknowledgments
    [EOF] and [Exited]; [StreamOther] stands for every other value of the
    underlying integer type. *)
Inductive SeqStreamCtrl : Type :=
| StreamTry
| StreamQuit
| StreamEOF
| StreamExited
| StreamOther (code : Z).

#[global] Instance SeqStreamCtrl_eq_dec : EqDecision SeqStreamCtrl.
Proof. solve_decision. Defined.

(** [type WatchCtrl int] *)
Definition WatchCtrl : Type := Z.

(** The sentinel a watcher sends back once its sweep is over. *)
Definition watchDone : WatchCtrl := -9.

(** ** Filesystem notifications *)

(** [fsnotify.Op] is a bit mask. *)
Definition fsCreate : Z := 1.
Definition fsWrite : Z := 2.
Definition fsRemove : Z := 4.
Definition fsRename : Z := 8.
Definition fsChmod : Z := 16.

(** [op&flag == flag] *)
Definition has_op (op flag : Z) : bool := Z.land op flag =? flag.

Record FsEvent : Type := mkFsEvent { ev_Name : string; ev_Op : Z }.

(** What [os.Stat] and the walker report about a path. *)
Record FileInfo : Type := mkFileInfo { fi_Size : Z; fi_IsDir : bool }.

(** ** Registry entries *)

(** Channels are handles; the nil channel is [None]. *)
Definition Chan : Type := nat.
Bind Scope nat_scope with Chan.

Record WatchedFx : Type := mkWatchedFx {
  Name : string;
  LastSize : Z;
  LastTry : Z;
  BytesRead : Z;
  IsDir : bool;
  SeqChan : option Chan;
  CtrlChanIn : option Chan;
  CtrlChanOut : option Chan
}.

(** [&WatchedFx{Name: path, IsDir: true}]: every other field is zero. *)
Definition dirEntry (path : string) : WatchedFx :=
  mkWatchedFx path 0 0 0 true None None None.

(** [&WatchedFx{Name: path, IsDir: false, SeqChan: sc, CtrlChanIn: ctrlIn,
    CtrlChanOut: ctrlOut, LastSize: size, LastTry: created}] *)
Definition fileEntry (path : string) (sc ctrlIn ctrlOut : Chan)
    (size created : Z) : WatchedFx :=
  mkWatchedFx path size created 0 false (Some sc) (Some ctrlIn) (Some ctrlOut).

Definition set_LastTry (t : Z) (w : WatchedFx) : WatchedFx :=
  mkWatchedFx (Name w) (LastSize w) t (BytesRead w) (IsDir w)
              (SeqChan w) (CtrlChanIn w) (CtrlChanOut w).

Definition set_LastSize (n : Z) (w : WatchedFx) : WatchedFx :=
  mkWatchedFx (Name w) n (LastTry w) (BytesRead w) (IsDir w)
              (SeqChan w) (CtrlChanIn w) (CtrlChanOut w).

(** Parsed records are opaque to the watcher and to the coordinator. *)
Definition simpleSeq : Type := string.

(** ** What a watcher does that others can see *)

Inductive Event : Type :=
| EvSend (c : Chan) (s : SeqStreamCtrl)    (* request put on a CtrlChanIn *)
| EvRecv (c : Chan) (s : SeqStreamCtrl)    (* acknowledgment taken from a CtrlChanOut *)
| EvSpawn (path : string) (ctrlIn ctrlOut : Chan) (* NewRawSeqStreamFromFile *)
| EvWatchAdd (path : string)               (* watcher.Add succeeded *)
| EvWatchRemove (path : string)            (* watcher.Remove *)
| EvDelete (path : string)                 (* delete(self.Pool, path) *)
| EvNotify (v : WatchCtrl)                 (* ctrlChan <- v *)
| EvPrintln (seq : simpleSeq).             (* fmt.Println(seq) *)

#[global] Instance Event_eq_dec : EqDecision Event.
Proof. solve_decision. Defined.

(** ** The environment of one watcher *)

(** Observations are indexed by a tick that advances with every call to the
    outside, so that two calls may see different answers. *)
Record World : Type := mkWorld {
  w_now : nat → Z;                           (* time.Now() *)
  w_stat : nat → string → option FileInfo;   (* os.Stat: None is an error *)
  w_add_fails : nat → string → bool;         (* watcher.Add returns an error *)
  w_match : string → bool;                   (* re.MatchString *)
  w_join : string → string → string;         (* path.Join *)
  w_walk : nat → list (string * option FileInfo); (* entries cwalk.Walk visits *)
  w_walk_fails : nat → bool;                 (* cwalk.Walk returns an error *)
  w_acks : Chan → list SeqStreamCtrl         (* what a new session will acknowledge *)
}.

(** What the body of [checkError] does with a non-nil error is not part of
    [scat.go]; both possibilities are kept. *)
Inductive CheckErrorMode : Type := ErrExits | ErrReturns.

(** The arguments of [NewFxWatcher] the event policy depends on. *)
Record Config : Type := mkConfig {
  cfg_dir : string;
  cfg_seqChan : Chan;
  cfg_minDelta : Z;
  cfg_dropDuration : Z;
  cfg_checkError : CheckErrorMode
}.

(** ** Watcher state *)

Record State : Type := mkState {
  Pool : gmap string WatchedFx;          (* self.Pool *)
  Mutex : bool;                          (* self.Mutex is held *)
  Inbox : gmap Chan (list SeqStreamCtrl);(* acknowledgments still to arrive *)
  NextChan : Chan;                       (* next fresh channel handle *)
  Tick : nat;                            (* calls made to the outside *)
  Trace : list Event
}.

Definition with_Pool (f : gmap string WatchedFx → gmap string WatchedFx)
    (s : State) : State :=
  mkState (f (Pool s)) (Mutex s) (Inbox s) (NextChan s) (Tick s) (Trace s).

Definition with_Mutex (b : bool) (s : State) : State :=
  mkState (Pool s) b (Inbox s) (NextChan s) (Tick s) (Trace s).

Definition with_Inbox (f : gmap Chan (list SeqStreamCtrl) → gmap Chan (list SeqStreamCtrl))
    (s : State) : State :=
  mkState (Pool s) (Mutex s) (f (Inbox s)) (NextChan s) (Tick s) (Trace s).

Definition with_NextChan (n : Chan) (s : State) : State :=
  mkState (Pool s) (Mutex s) (Inbox s) n (Tick s) (Trace s).

Definition tick (s : State) : State :=
  mkState (Pool s) (Mutex s) (Inbox s) (NextChan s) (S (Tick s)) (Trace s).

Definition emit (e : Event) (s : State) : State :=
  mkState (Pool s) (Mutex s) (Inbox s) (NextChan s) (Tick s) (Trace s ++ [e]).

(** ** Outcomes and the watcher monad *)

Inductive Result (A : Type) : Type :=
| Done (a : A) (s : State)
| Fatal (s : State)       (* log.Fatal, os.Exit: the process is gone *)
| Panic (s : State)       (* run-time panic, e.g. a nil dereference *)
| Blocked (s : State).    (* waits on a channel or a mutex for ever *)

Arguments Done {A} a s.
Arguments Fatal {A} s.
Arguments Panic {A} s.
Arguments Blocked {A} s.

Definition M (A : Type) : Type := State → Result A.

Definition ret {A} (a : A) : M A := fun s => Done a s.

Definition bind {A B} (m : M A) (k : A → M B) : M B :=
  fun s =>
    match m s with
    | Done a s' => k a s'
    | Fatal s' => Fatal s'
    | Panic s' => Panic s'
    | Blocked s' => Blocked s'
    end.

Declare Scope watch_scope.
Delimit Scope watch_scope with watch.
Notation "'let*' x := m 'in' k" := (bind m (fun x => k))
  (at level 10, x name, m at level 100, k at level 200) : watch_scope.
Notation "m >>> k" := (bind m (fun _ => k))
  (at level 100, k at level 200, right associativity) : watch_scope.
Local Open Scope watch_scope.

(** The state an outcome is reached in. *)
Definition final_state {A} (r : Result A) : State :=
  match r with
  | Done _ s | Fatal s | Panic s | Blocked s => s
  end.

Definition is_done {A} (r : Result A) : bool :=
  match r with Done _ _ => true | _ => false end.

Definition fatal {A} : M A := fun s => Fatal s.
Definition panic {A} : M A := fun s => Panic s.
Definition block {A} : M A := fun s => Blocked s.
Definition modify (f : State → State) : M unit := fun s => Done tt (f s).

(** ** The directory watcher, [NewFxWatcher] *)

Module FxWatcher.
Section Watcher.

Variable W : World.
Variable cfg : Config.

(** *** Primitives *)

(** [self.Mutex.Lock()].  The programs below run one at a time, each to its
    end: a mutex found held was left held by an earlier one, and nothing is
    going to release it. *)
Definition lock : M unit :=
  fun s => if Mutex s then Blocked s else Done tt (with_Mutex true s).

(** [self.Mutex.Unlock()]: unlocking a free mutex is a run-time error. *)
Definition unlock : M unit :=
  fun s => if Mutex s then Done tt (with_Mutex false s) else Panic s.

(** [self.Pool[p]], nil when absent. *)
Definition pool_lookup (p : string) : M (option WatchedFx) :=
  fun s => Done (Pool s !! p) s.

(** Following a pointer or calling a method on an interface value. *)
Definition deref {A} (o : option A) : M A :=
  match o with
  | Some a => ret a
  | None => panic
  end.

Definition pool_store (p : string) (w : WatchedFx) : M unit :=
  modify (with_Pool (<[p := w]>)).

Definition pool_delete (p : string) : M unit :=
  modify (fun s => emit (EvDelete p) (with_Pool (delete p) s)).

(** [c <- sig]: a send on the nil channel never completes; a session takes
    what is sent on its request channel. *)
Definition chan_send (c : option Chan) (sig : SeqStreamCtrl) : M unit :=
  match c with
  | None => block
  | Some c => modify (emit (EvSend c sig))
  end.

(** [<-c]: waits for the next acknowledgment; for ever on the nil channel
    or when the session stays silent. *)
Definition chan_recv (c : option Chan) : M SeqStreamCtrl :=
  match c with
  | None => block
  | Some c =>
      fun s =>
        match Inbox s !! c with
        | Some (a :: rest) =>
            Done a (emit (EvRecv c a) (with_Inbox (<[c := rest]>) s))
        | _ => Blocked s
        end
  end.

Definition time_Now : M Z :=
  fun s => Done (w_now W (Tick s)) (tick s).

(** [os.Stat]: the file info is nil exactly when the error is not. *)
Definition os_Stat (p : string) : M (option FileInfo) :=
  fun s => Done (w_stat W (Tick s) p) (tick s).

Definition stat_err (fi : option FileInfo) : bool :=
  match fi with Some _ => false | None => true end.

(** [watcher.Add]: returns whether it failed. *)
Definition watcher_Add (p : string) : M bool :=
  fun s =>
    if w_add_fails W (Tick s) p then Done true (tick s)
    else Done false (emit (EvWatchAdd p) (tick s)).

Definition watcher_Remove (p : string) : M unit :=
  modify (emit (EvWatchRemove p)).

(** [checkError(err)]: nothing happens on a nil error. *)
Definition checkError (err : bool) : M unit :=
  if err then
    match cfg_checkError cfg with
    | ErrExits => fatal
    | ErrReturns => ret tt
    end
  else ret tt.

Definition reFilterName (name : string) : bool := w_match W name.

(** [NewRawSeqStreamFromFile]: a new session with two fresh channels. *)
Definition NewRawSeqStreamFromFile (path : string) : M (Chan * Chan) :=
  fun s =>
    let ctrlIn := NextChan s in
    let ctrlOut := S ctrlIn in
    Done (ctrlIn, ctrlOut)
         (emit (EvSpawn path ctrlIn ctrlOut)
               (with_Inbox (<[ctrlOut := w_acks W ctrlOut]>)
                           (with_NextChan (S ctrlOut) s))).

(** *** The discovery-walk callback, lines 210-240 *)

Definition walkFunc (path : string) (info : option FileInfo) : M unit :=
  let path := w_join W (cfg_dir cfg) path in
  lock >>>
  let* known := pool_lookup path in
  match known with
  | Some _ => unlock
  | None =>
      let* info := deref info in
      if fi_IsDir info then
        let* err := watcher_Add path in
        checkError err >>>
        pool_store path (dirEntry path) >>>
        unlock
      else
        if negb (reFilterName path) then ret tt
        else
          let* created := time_Now in
          let sc := cfg_seqChan cfg in
          let* chans := NewRawSeqStreamFromFile path in
          let* err := watcher_Add path in
          checkError err >>>
          let* fi := os_Stat path in
          checkError (stat_err fi) >>>
          let* fi := deref fi in
          pool_store path
            (fileEntry path sc (fst chans) (snd chans) (fi_Size fi) created) >>>
          chan_send (Some (fst chans)) StreamTry >>>
          unlock
  end.

(** [cwalk.Walk(dir, walkFunc)]: the callback runs on every entry the walker
    visits; the result is whether the walker reports an error. *)
Fixpoint walk_entries (l : list (string * option FileInfo)) : M unit :=
  match l with
  | [] => ret tt
  | (p, info) :: rest => walkFunc p info >>> walk_entries rest
  end.

Definition cwalk_Walk : M bool :=
  fun s =>
    (walk_entries (w_walk W (Tick s)) >>> ret (w_walk_fails W (Tick s)))
      (tick s).

(** *** The event policy, lines 274-378 *)

(** How a branch leaves: falls through to the next [if], or [continue]s the
    loop. *)
Inductive Flow : Type := Next | ContinueLoop.

(** [fb := <-c; if fb != StreamExited { log.Fatal }] *)
Definition expect_Exited (c : option Chan) : M unit :=
  let* fb := chan_recv c in
  if decide (fb = StreamExited) then ret tt else fatal.

(** Lines 275-298. *)
Definition on_Remove (ePath : string) : M Flow :=
  lock >>>
  let* di := pool_lookup ePath in
  match di with
  | None => unlock >>> ret ContinueLoop
  | Some di =>
      if IsDir di then
        watcher_Remove ePath >>>
        pool_delete ePath >>>
        unlock >>>
        ret ContinueLoop
      else
        chan_send (CtrlChanIn di) StreamQuit >>>
        expect_Exited (CtrlChanOut di) >>>
        pool_delete ePath >>>
        unlock >>>
        ret ContinueLoop
  end.

(** Lines 299-307: no lock, and [self.Pool[ePath]] is followed unchecked. *)
Definition on_Rename (ePath : string) : M Flow :=
  let* e := pool_lookup ePath in
  let* e := deref e in
  chan_send (CtrlChanIn e) StreamQuit >>>
  let* e := pool_lookup ePath in
  let* e := deref e in
  expect_Exited (CtrlChanOut e) >>>
  pool_delete ePath >>>
  ret Next.

(** Lines 308-341. *)
Definition on_Create (ePath : string) : M Flow :=
  let* known := pool_lookup ePath in
  match known with
  | Some _ => ret ContinueLoop
  | None =>
      let* fi := os_Stat ePath in
      checkError (stat_err fi) >>>
      lock >>>
      let* fi := deref fi in
      if fi_IsDir fi then
        let* err := watcher_Add ePath in
        checkError err >>>
        pool_store ePath (dirEntry ePath) >>>
        unlock >>>
        let* err := cwalk_Walk in
        checkError err >>>
        ret ContinueLoop
      else
        if negb (reFilterName ePath) then unlock >>> ret ContinueLoop
        else
          let* created := time_Now in
          let sc := cfg_seqChan cfg in
          let* chans := NewRawSeqStreamFromFile ePath in
          pool_store ePath
            (fileEntry ePath sc (fst chans) (snd chans) (fi_Size fi) created) >>>
          let* err := watcher_Add ePath in
          checkError err >>>
          chan_send (Some (fst chans)) StreamTry >>>
          unlock >>>
          ret Next
  end.

(** Lines 342-378.  [fi.IsDir()] is evaluated only when the path is
    tracked ([||] short-circuits). *)
Definition on_Write (ePath : string) : M Flow :=
  let* fi := os_Stat ePath in
  checkError (stat_err fi) >>>
  lock >>>
  let* e := pool_lookup ePath in
  match e with
  | None => unlock >>> ret ContinueLoop
  | Some _ =>
      let* fi := deref fi in
      if fi_IsDir fi then unlock >>> ret ContinueLoop
      else
        let* now := time_Now in
        let* e := pool_lookup ePath in
        let* e := deref e in
        if time_sub now (LastTry e) <? cfg_dropDuration cfg then
          unlock >>> ret ContinueLoop
        else
          let* e := pool_lookup ePath in
          let* e := deref e in
          if LastSize e =? fi_Size fi then unlock >>> ret ContinueLoop
          else
            let* e := pool_lookup ePath in
            let* e := deref e in
            let delta := sub64 (fi_Size fi) (LastSize e) in
            if delta <? 0 then
              let* e := pool_lookup ePath in
              let* e := deref e in
              chan_send (CtrlChanIn e) StreamQuit >>>
              let* e := pool_lookup ePath in
              let* e := deref e in
              expect_Exited (CtrlChanOut e) >>>
              pool_delete ePath >>>
              unlock >>>
              ret ContinueLoop
            else
              if delta <? cfg_minDelta cfg then unlock >>> ret ContinueLoop
              else
                let* e := pool_lookup ePath in
                let* e := deref e in
                chan_send (CtrlChanIn e) StreamTry >>>
                let* now := time_Now in
                let* e := pool_lookup ePath in
                let* e := deref e in
                pool_store ePath (set_LastTry now e) >>>
                unlock >>>
                ret Next
  end.

(** One notification taken from [watcher.Events]. *)
Definition handle_event (event : FsEvent) : M unit :=
  let ePath := ev_Name event in
  let op := ev_Op event in
  if has_op op fsRemove then on_Remove ePath >>> ret tt
  else
    (if has_op op fsRename then on_Rename ePath else ret Next) >>>
    let* f := (if has_op op fsCreate then on_Create ePath else ret Next) in
    match f with
    | ContinueLoop => ret tt
    | Next =>
        if has_op op fsWrite then on_Write ePath >>> ret tt else ret tt
    end.

(** Successive notifications, each handled to its end before the next. *)
Fixpoint handle_events (events : list FsEvent) : M unit :=
  match events with
  | [] => ret tt
  | ev :: rest => handle_event ev >>> handle_events rest
  end.

(** *** Start of the watcher, lines 390-398 *)

Definition startup : M unit :=
  lock >>>
  let* err := watcher_Add (cfg_dir cfg) in
  pool_store (cfg_dir cfg) (dirEntry (cfg_dir cfg)) >>>
  checkError err >>>
  unlock >>>
  let* err := cwalk_Walk in
  checkError err.

(** *** The shutdown sweep, lines 246-269 *)

(** [for j := range c { if j == StreamExited { break } else if
    j != StreamEOF { log.Fatal } }] over the acknowledgments still to
    arrive on [c]. *)
Fixpoint range_acks (c : Chan) (pending : list SeqStreamCtrl) (s : State)
    : Result unit :=
  match pending with
  | [] => Blocked s
  | j :: rest =>
      let s' := emit (EvRecv c j) (with_Inbox (<[c := rest]>) s) in
      if decide (j = StreamExited) then Done tt s'
      else if decide (j = StreamEOF) then range_acks c rest s'
      else Fatal s'
  end.

Definition range_CtrlChanOut (c : option Chan) : M unit :=
  match c with
  | None => block
  | Some c => fun s => range_acks c (default [] (Inbox s !! c)) s
  end.

Definition sweep_entry (ePath : string) (w : WatchedFx) : M unit :=
  watcher_Remove ePath >>>
  if IsDir w then pool_delete ePath
  else
    chan_send (CtrlChanIn w) StreamQuit >>>
    range_CtrlChanOut (CtrlChanOut w) >>>
    pool_delete ePath.

(** [for ePath, w := range self.Pool]: Go fixes no iteration order, so the
    order is an argument; a key deleted before it is reached is not
    visited. *)
Fixpoint sweep (order : list string) : M unit :=
  match order with
  | [] => ret tt
  | ePath :: rest =>
      let* e := pool_lookup ePath in
      match e with
      | None => ret tt
      | Some w => sweep_entry ePath w
      end >>>
      sweep rest
  end.

Definition on_shutdown (order : list string) : M unit :=
  lock >>>
  sweep order >>>
  unlock >>>
  modify (emit (EvNotify watchDone)).

(** *** One turn of the event goroutine, lines 244-387 *)

(** What the [select] picked. *)
Inductive Selected : Type :=
| SelCtrl (v : WatchCtrl) (order : list string) (* <-ctrlChan *)
| SelEvent (event : option FsEvent)   (* <-watcher.Events; None: closed *)
| SelError (ok : bool)                (* <-watcher.Errors *)
| SelDefault.

Inductive LoopFlow : Type := Again | Return.

Definition loop_step (sel : Selected) : M LoopFlow :=
  match sel with
  | SelCtrl _ order => on_shutdown order >>> ret Return
  | SelEvent None => ret Return
  | SelEvent (Some event) => handle_event event >>> ret Again
  | SelError false => ret Return
  | SelError true => fatal
  | SelDefault => ret Again
  end.

(** *** The drain loop of the main goroutine, lines 400-434 *)

(** What the inner [select] picked; the end of the list is [default]. *)
Inductive Pick : Type :=
| PickSeq (seq : option simpleSeq)    (* <-w.SeqChan; None: closed *)
| PickCtrl                            (* <-w.CtrlChanOut *)
| PickCtrlClosed.                     (* <-w.CtrlChanOut, closed *)

(** A case on a nil or empty channel is never ready and is passed over. *)
Fixpoint drain_CHAN (ePath : string) (w : WatchedFx) (picks : list Pick)
    : M unit :=
  match picks with
  | [] => ret tt
  | PickSeq x :: rest =>
      match SeqChan w, x with
      | None, _ => drain_CHAN ePath w rest
      | Some _, None => ret tt
      | Some _, Some seq =>
          modify (emit (EvPrintln seq)) >>> drain_CHAN ePath w rest
      end
  | PickCtrlClosed :: rest =>
      match CtrlChanOut w with
      | None => drain_CHAN ePath w rest
      | Some _ => ret tt
      end
  | PickCtrl :: rest =>
      match CtrlChanOut w with
      | None => drain_CHAN ePath w rest
      | Some c =>
          fun s =>
            match Inbox s !! c with
            | Some (_ :: _) =>
                (let* e := chan_recv (Some c) in
                 if decide (e = StreamEOF) then ret tt
                 else if decide (e = StreamExited) then pool_delete ePath
                 else fatal) s
            | _ => drain_CHAN ePath w rest s
            end
      end
  end.

(** Lines 428-431: [fi, err := os.Stat(ePath); if err != nil
    { w.LastSize = fi.Size() }]. *)
Definition refresh_LastSize (ePath : string) : M unit :=
  let* fi := os_Stat ePath in
  if stat_err fi then
    let* info := deref fi in
    modify (with_Pool (alter (set_LastSize (fi_Size info)) ePath))
  else ret tt.

Definition drain_entry (ePath : string) (w : WatchedFx) (picks : list Pick)
    : M unit :=
  lock >>>
  drain_CHAN ePath w picks >>>
  refresh_LastSize ePath >>>
  unlock.

(** One pass of [for ePath, w := range self.Pool]. *)
Fixpoint drain_pass (order : list (string * list Pick)) : M unit :=
  match order with
  | [] => ret tt
  | (ePath, picks) :: rest =>
      let* e := pool_lookup ePath in
      match e with
      | None => ret tt
      | Some w => drain_entry ePath w picks
      end >>>
      drain_pass rest
  end.

End Watcher.
End FxWatcher.

(** ** The root coordinator: [scatCmd] and [LaunchFxWatchers] *)

Module Coordinator.

(** Where a record can be written. *)
Inductive Dest : Type :=
| Stdout
| OutFile (name : string).

#[global] Instance Dest_eq_dec : EqDecision Dest.
Proof. solve_decision. Defined.

(** [xopen.Wopen(outFile)]: the name [-] stands for standard output. *)
Definition Wopen (outFile : string) : Dest :=
  if decide (outFile = "-") then Stdout else OutFile outFile.

(** Line 72 of [scatCmd]: [delta := getFlagInt(cmd, "delta") * 1024], handed
    on unchanged as [minDelta] of every watcher. *)
Definition delta_bytes (flag : Z) : Z := mul64 flag 1024.

(** One [go NewFxWatcher(dir, allSeqChans[i], allCtrlChans[i], ...)]. *)
Record Spawned : Type := mkSpawned { sp_index : nat; sp_dir : string }.

(** Lines 99-105: one watcher per element of the slice it is given. *)
Definition spawn_watchers (dirs : list string) : list Spawned :=
  imap mkSpawned dirs.

(** Lines 83-88. *)
Fixpoint usable_roots (dirs : list string) : list string :=
  match dirs with
  | [] => []
  | d :: rest =>
      if decide (d ≠ "-") then d :: usable_roots rest else usable_roots rest
  end.

Inductive Started : Type :=
| Exit (code : Z)
| Launched (watchers : list Spawned).

(** Lines 78-93 of [scatCmd.Run], from the list [getFileList] returns:
    [ndirs] decides whether to start, [dirs] is what is launched. *)
Definition scat_Run (dirs : list string) : Started :=
  let ndirs := usable_roots dirs in
  if (length ndirs =? 0)%nat then Exit 1
  else Launched (spawn_watchers dirs).

(** *** The polling branch, lines 140-172 *)

Record Coord : Type := mkCoord {
  allSeqChans : list bool;        (* allSeqChans[j] != nil *)
  allCtrlChans : list bool;       (* allCtrlChans[j] != nil *)
  written : list (Dest * simpleSeq)
}.

Inductive Pulled : Type :=
| GotSeq (seq : simpleSeq)        (* seq := <-sc *)
| GotCtrl (fb : WatchCtrl).       (* fb := <-allCtrlChans[j] *)

(** [fmt.Println(seq)] *)
Definition println (seq : simpleSeq) (c : Coord) : Coord :=
  mkCoord (allSeqChans c) (allCtrlChans c) (written c ++ [(Stdout, seq)]).

Definition retire (j : nat) (c : Coord) : Coord :=
  mkCoord (<[j := false]> (allSeqChans c)) (<[j := false]> (allCtrlChans c))
          (written c).

(** The [PULL] loop on root [j]; the end of the list is [default], and
    [None] is [log.Fatal].  Once [allCtrlChans[j]] is nil its case is never
    ready. *)
Fixpoint PULL (j : nat) (picks : list Pulled) (c : Coord) : option Coord :=
  match picks with
  | [] => Some c
  | GotSeq seq :: rest => PULL j rest (println seq c)
  | GotCtrl fb :: rest =>
      if default false (allCtrlChans c !! j) then
        if decide (fb ≠ watchDone) then None
        else PULL j rest (retire j c)
      else PULL j rest c
  end.

(** Lines 141-162: every root whose queue is live when the loop reaches it
    is counted and polled; [picks !! j] is what its [select]s pick. *)
Fixpoint poll_from (todo j : nat) (picks : list (list Pulled)) (active : nat)
    (c : Coord) : option (nat * Coord) :=
  match todo with
  | O => Some (active, c)
  | S todo' =>
      if default false (allSeqChans c !! j) then
        match PULL j (default [] (picks !! j)) c with
        | None => None
        | Some c' => poll_from todo' (S j) picks (S active) c'
        end
      else poll_from todo' (S j) picks active c
  end.

Definition poll_roots (picks : list (list Pulled)) (c : Coord)
    : option (nat * Coord) :=
  poll_from (length (allSeqChans c)) 0 picks 0 c.

(** *** The shutdown broadcast, lines 119-126 and 131-138 *)

(** A root as the coordinator finds it: whether [allCtrlChans[i]] is still
    there, the watcher behind it, and the order in which that watcher's
    sweep will visit its registry. *)
Record Root : Type := mkRoot {
  r_live : bool;
  r_watcher : State;
  r_order : list string
}.

(** [cc <- WatchCtrl(i)] wakes the [<-ctrlChan] case of watcher [i]; [<-cc]
    then waits for what that watcher sends at the end of its sweep.  The
    result is [None] when the coordinator never gets to [return]. *)
Fixpoint broadcast (roots : list Root) : option (list State) :=
  match roots with
  | [] => Some []
  | r :: rest =>
      if r_live r then
        match FxWatcher.on_shutdown (r_order r) (r_watcher r) with
        | Done _ s' => cons s' <$> broadcast rest
        | _ => None
        end
      else cons (r_watcher r) <$> broadcast rest
  end.

(** The records among what was pulled, in arrival order. *)
Definition pulled_seqs (picks : list Pulled) : list simpleSeq :=
  omap (fun p => match p with GotSeq s => Some s | GotCtrl _ => None end) picks.

(** What reached a destination. *)
Definition written_to (d : Dest) (c : Coord) : list simpleSeq :=
  omap (fun w => if decide (fst w = d) then Some (snd w) else None) (written c).

(** *** What one polling turn amounts to, lines 140-172 *)

(** Lines 99-105: every root starts with both its channels made. *)
Definition launch_coord (dirs : list string) : Coord :=
  mkCoord (replicate (length dirs) true) (replicate (length dirs) true) [].

(** Lines 164-170: the roots the last loop would still address, those with
    both channels left.  Both slices have the length of [dirs]. *)
Definition stragglers (c : Coord) : list nat :=
  filter (λ i, default false (allCtrlChans c !! i) = true ∧
               default false (allSeqChans c !! i) = true)
         (seq 0 (length (allCtrlChans c))).

Inductive Turn : Type :=
| Polling (c : Coord)                      (* back to the [select] *)
| Returned (addressed : list nat) (c : Coord) (* [return] after the last loop *)
| Aborted.                                 (* [log.Fatal] *)

Definition default_turn (picks : list (list Pulled)) (c : Coord) : Turn :=
  match poll_roots picks c with
  | None => Aborted
  | Some (active, c') =>
      if (active =? 0)%nat then Returned (stragglers c') c' else Polling c'
  end.

(** The first control value among what was pulled. *)
Definition first_ctrl (picks : list Pulled) : option WatchCtrl :=
  head (omap (fun p => match p with GotCtrl fb => Some fb | GotSeq _ => None end)
             picks).

(** The records one polling turn takes, root after root from index [j]. *)
Fixpoint polled_from (j : nat) (live : list bool) (picks : list (list Pulled))
    : list simpleSeq :=
  match live with
  | [] => []
  | b :: rest =>
      (if b then pulled_seqs (default [] (picks !! j)) else []) ++
      polled_from (S j) rest picks
  end.

Definition count_live (live : list bool) : nat :=
  length (filter (λ b, b = true) live).

End Coordinator.

(** ** Vocabulary of the statements *)

(** A write notification: the [Write] bit alone among the bits the policy
    looks at. *)
Definition is_write (op : Z) : bool :=
  has_op op fsWrite && negb (has_op op fsCreate) &&
  negb (has_op op fsRemove) && negb (has_op op fsRename).

(** The [EOF]s a session sends before anything else, and what comes after
    them. *)
Fixpoint leading_EOFs (l : list SeqStreamCtrl) : nat :=
  match l with
  | StreamEOF :: rest => S (leading_EOFs rest)
  | _ => O
  end.

Definition first_reply (l : list SeqStreamCtrl) : option SeqStreamCtrl :=
  l !! leading_EOFs l.

(** The acknowledgments still to arrive on a channel. *)
Definition pending (s : State) (c : option Chan) : list SeqStreamCtrl :=
  match c with
  | Some c => default [] (Inbox s !! c)
  | None => []
  end.

(** The acknowledgment channel of the session behind a file entry. *)
Definition session_out (s : State) (p : string) : option Chan :=
  match Pool s !! p with
  | Some w => if IsDir w then None else CtrlChanOut w
  | None => None
  end.

(** A file entry carries both channels of its session. *)
Definition has_session (w : WatchedFx) : Prop :=
  IsDir w = false → is_Some (CtrlChanIn w) ∧ is_Some (CtrlChanOut w).

(** The session behind a file entry answers [Quit] with [Exited], after any
    number of [EOF]s. *)
Definition answers_Exited (s : State) (w : WatchedFx) : Prop :=
  IsDir w = false →
  first_reply (pending s (CtrlChanOut w)) = Some StreamExited.

(** What the sweep is expected to do on one entry. *)
Definition sweep_script (s : State) (ePath : string) : list Event :=
  match Pool s !! ePath with
  | None => []
  | Some w =>
      if IsDir w then [EvWatchRemove ePath; EvDelete ePath]
      else
        match CtrlChanIn w, CtrlChanOut w with
        | Some cin, Some cout =>
            [EvWatchRemove ePath; EvSend cin StreamQuit] ++
            replicate (leading_EOFs (pending s (Some cout)))
                      (EvRecv cout StreamEOF) ++
            [EvRecv cout StreamExited; EvDelete ePath]
        | _, _ => []
        end
  end.

(** Two states agree on a path when they hold the same entry for it and
    the same acknowledgments for its session. *)
Definition agree_on (s s1 : State) (q : string) : Prop :=
  Pool s1 !! q = Pool s !! q ∧
  ∀ c, session_out s q = Some c → Inbox s1 !! c = Inbox s !! c.

(** What the sweep asks of the entries it visits. *)
Definition sweepable (s : State) (p : string) : Prop :=
  ∃ w, Pool s !! p = Some w ∧ has_session w ∧ answers_Exited s w.

#[global] Instance has_session_dec w : Decision (has_session w).
Proof. unfold has_session. apply _. Defined.

#[global] Instance answers_Exited_dec s w : Decision (answers_Exited s w).
Proof. unfold answers_Exited. apply _. Defined.

(** ** A sample root: [/data] holding one tracked file *)

Module Sample.

Definition root : string := "/data".
Definition file : string := "/data/a.fastq".

Fixpoint contains (sub s : string) : bool :=
  String.prefix sub s ||
  match s with
  | EmptyString => false
  | String _ rest => contains sub rest
  end.

(** The default pattern of the [regexp] flag, [.*\.(fastq|fq)], which is
    not anchored. *)
Definition default_pattern (name : string) : bool :=
  contains ".fastq" name || contains ".fq" name.

(** A world where the clock reads [now] and the tracked file has the given
    size, or is gone. *)
Definition world (size : option Z) (now : Z) : World :=
  mkWorld (λ _, now)
          (λ _ p, if decide (p = file) then
                    (λ n, mkFileInfo n false) <$> size
                  else if decide (p = root) then Some (mkFileInfo 4096 true)
                  else None)
          (λ _ _, false)
          default_pattern
          (λ d p, d +:+ "/" +:+ p)
          (λ _, [])
          (λ _, false)
          (λ _, [StreamEOF]).

(** Threshold 5 KiB, debounce 500 ms. *)
Definition config (mode : CheckErrorMode) : Config :=
  mkConfig root 0%nat (Coordinator.delta_bytes 5) 500000000 mode.

Definition entry : WatchedFx := fileEntry file 0%nat 1%nat 2%nat 20480 0.

(** The file is tracked at 20480 bytes, last tried at instant 0; [acks] is
    what its session will acknowledge. *)
Definition state (acks : list SeqStreamCtrl) : State :=
  mkState (<[file := entry]> {[root := dirEntry root]}) false
          {[2%nat := acks]} 3%nat 0%nat [].

Definition file2 : string := "/data/b.fq".
Definition entry2 : WatchedFx := fileEntry file2 0%nat 3%nat 4%nat 100 0.

(** Two tracked files. *)
Definition state2 (acks acks2 : list SeqStreamCtrl) : State :=
  mkState (<[file2 := entry2]> (<[file := entry]> {[root := dirEntry root]}))
          false {[2%nat := acks; 4%nat := acks2]} 5%nat 0%nat [].

(** The scenario of section 8 of the specification: the file appears empty
    at instant 0, is seen at 10240 bytes 100 ms later and at 20480 bytes
    600 ms after its creation.  Ticks 0-2 belong to the create notification,
    3-4 to the first write, 5-7 to the second. *)
Definition scenario : World :=
  mkWorld (λ t, if (t <? 2)%nat then 0
                else if (t <? 5)%nat then 100000000 else 600000000)
          (λ t p, if decide (p = file) then
                    Some (mkFileInfo (if (t <? 2)%nat then 0
                                      else if (t <? 5)%nat then 10240
                                      else 20480) false)
                  else None)
          (λ _ _, false)
          default_pattern
          (λ d p, d +:+ "/" +:+ p)
          (λ _, [])
          (λ _, false)
          (λ _, []).

(** Only the root is registered. *)
Definition fresh : State :=
  mkState {[root := dirEntry root]} false ∅ 0%nat 0%nat [].

End Sample.

(** A program never adds to the registry nor changes an entry it keeps. *)
Definition pool_shrinks {A} (m : M A) : Prop :=
  ∀ s, Pool (final_state (m s)) ⊆ Pool s.

(** A rename notification: the rename bit alone among the bits the policy
    looks at. *)
Definition is_rename (op : Z) : bool :=
  has_op op fsRename && negb (has_op op fsCreate) &&
  negb (has_op op fsRemove) && negb (has_op op fsWrite).


(** ** Good order of a registry *)

(** Every entry is filed under its own name; a directory entry has no
    channel; a file entry holds both channels of its session, allocated
    before [n], and no other file entry shares its acknowledgment
    channel. *)
Definition registry_ok (m : gmap string WatchedFx) (n : Chan) : Prop :=
  ∀ p w, m !! p = Some w →
    Name w = p ∧
    (IsDir w = true → CtrlChanIn w = None ∧ CtrlChanOut w = None) ∧
    (IsDir w = false →
     ∃ cin cout,
       CtrlChanIn w = Some cin ∧ CtrlChanOut w = Some cout ∧
       (cin < n)%nat ∧ (cout < n)%nat ∧
       ∀ q v, m !! q = Some v → IsDir v = false →
              CtrlChanOut v = Some cout → q = p).

Definition wf_registry (s : State) : Prop :=
  registry_ok (Pool s) (NextChan s).

(** A program keeps an invariant when the state it ends in, however it
    ends, satisfies it again. *)
Definition keeps (I : State → Prop) {A} (m : M A) : Prop :=
  ∀ s, I s → I (final_state (m s)).

(** A program that leaves registry and channel counter alone. *)
Definition frames_pool {A} (m : M A) : Prop :=
  ∀ s, Pool (final_state (m s)) = Pool s ∧
       NextChan (final_state (m s)) = NextChan s.

(** A program that leaves the mutex alone. *)
Definition frames_mutex {A} (m : M A) : Prop :=
  ∀ s, Mutex (final_state (m s)) = Mutex s.

(** Started with the mutex in state [b0], the program, if it returns,
    returns with the mutex in state [b1]. *)
Definition ends_with (b0 b1 : bool) {A} (m : M A) : Prop :=
  ∀ s a s', Mutex s = b0 → m s = Done a s' → Mutex s' = b1.

(** ** More sample worlds *)

Module Scenes.

Definition notes : string := "/data/notes.txt".



(** The root holds [a.fastq] of 20480 bytes and [notes.txt], and the walker
    reports them in that order.  The start of the watcher takes ticks 0-4;
    from tick 5 on the clock reads 600 ms and [a.fastq] has [later] bytes. *)
Definition two_files (later : Z) : World :=
  mkWorld (λ t, if (t <? 5)%nat then 0 else 600000000)
          (λ t p, if decide (p = Sample.file) then
                    Some (mkFileInfo (if (t <? 5)%nat then 20480 else later)
                                     false)
                  else if decide (p = notes) then Some (mkFileInfo 10 false)
                  else if decide (p = Sample.root) then
                    Some (mkFileInfo 4096 true)
                  else None)
          (λ _ _, false)
          Sample.default_pattern
          (λ d p, d +:+ "/" +:+ p)
          (λ _, [("a.fastq", Some (mkFileInfo 20480 false));
                 ("notes.txt", Some (mkFileInfo 10 false))])
          (λ _, false)
          (λ _, [StreamEOF; StreamExited]).

(** A watcher before its start: [make(WatchedFxPool)], the mutex free, no
    session yet. *)
Definition boot : State := mkState ∅ false ∅ 0%nat 0%nat [].

Definition tracked : WatchedFx :=
  fileEntry Sample.file 0%nat 0%nat 1%nat 20480 0.

(** The state in which the start of the watcher on [two_files] returns:
    [a.fastq] is tracked, and the callback on [notes.txt] has left the mutex
    held. *)
Definition started : State :=
  mkState (<[Sample.file := tracked]> {[Sample.root := dirEntry Sample.root]})
          true
          {[1%nat := [StreamEOF; StreamExited]]} 2%nat 5%nat
          [EvWatchAdd Sample.root; EvSpawn Sample.file 0 1;
           EvWatchAdd Sample.file; EvSend 0 StreamTry].

End Scenes.

(** * Properties *)

Import FxWatcher Coordinator.

(** ** Arithmetic and notification bits *)

Lemma wrap64_small z : min_int64 ≤ z ≤ max_int64 → wrap64 z = z.
Proof.
  unfold wrap64, min_int64, max_int64. intros H.
  rewrite Z.mod_small by lia. lia.
Qed.


Lemma is_write_bits op :
  is_write op = true →
  has_op op fsWrite = true ∧ has_op op fsCreate = false ∧
  has_op op fsRemove = false ∧ has_op op fsRename = false.
Proof.
  unfold is_write. intros H.
  repeat (apply andb_prop in H; destruct H as [H ?]).
  repeat match goal with
         | H : negb _ = true |- _ => apply negb_true_iff in H
         end.
  auto.
Qed.

(** A write notification runs the write branch and nothing else. *)
Lemma handle_event_write W cfg ePath op st :
  is_write op = true →
  FxWatcher.handle_event W cfg (mkFsEvent ePath op) st
  = (FxWatcher.on_Write W cfg ePath >>> ret tt) st.
Proof.
  intros H. apply is_write_bits in H as (Hw & Hc & Hr & Hn).
  unfold handle_event. simpl. rewrite Hr, Hn, Hc, Hw. reflexivity.
Qed.

(** ** Running a handler on a symbolic state *)

Ltac use_hyps :=
  repeat match goal with
         | H : ?x = _ |- context [?x] => rewrite H
         end.

Ltac exec_unfold :=
  unfold bind, os_Stat, checkError, lock, unlock, pool_lookup, time_Now,
    deref, ret, expect_Exited, chan_send, chan_recv, pool_delete, pool_store,
    watcher_Remove, modify, fatal, panic, block.

Ltac exec := repeat (progress (exec_unfold; simpl; use_hyps)).

(** ** The write branch *)

(** The start of the watcher on a root that holds a file the pattern does
    not match returns with the mutex held: the callback of lines 223-225
    has returned without [Unlock]. *)
Lemma startup_leaves_mutex_held later :
  startup (Scenes.two_files later) (Sample.config ErrExits) Scenes.boot
  = Done tt Scenes.started.
Proof. vm_compute. reflexivity. Qed.

(** C3, where the code is at fault.  A write notification for a tracked
    file, after the debounce window, that finds the file strictly smaller
    than its last known size.  When the handler gets the mutex, it sends
    [Quit] and waits for one acknowledgment: [Exited] deletes the entry and
    the handler ends with the mutex released, any other acknowledgment is
    fatal, a silent session blocks the watcher, and in none of the three
    cases is a [Try] sent.  When the mutex is still held, as the walk
    callback leaves it at lines 223-225, the handler stops at its [Lock] of
    line 345: no [Quit] is sent and the entry stays in the registry. *)
Theorem write_truncation_quits W cfg st ePath op e cin cout fi :
  is_write op = true →
  Pool st !! ePath = Some e →
  CtrlChanIn e = Some cin →
  CtrlChanOut e = Some cout →
  w_stat W (Tick st) ePath = Some fi →
  fi_IsDir fi = false →
  cfg_dropDuration cfg ≤ time_sub (w_now W (S (Tick st))) (LastTry e) →
  0 ≤ fi_Size fi →
  fi_Size fi < LastSize e →
  LastSize e ≤ max_int64 →
  let r := FxWatcher.handle_event W cfg (mkFsEvent ePath op) st in
  let s' := final_state r in
  if Mutex st then
    r = Blocked (tick st)
  else
    match default [] (Inbox st !! cout) with
    | [] =>
        r = Blocked s' ∧
        Trace s' = Trace st ++ [EvSend cin StreamQuit] ∧
        Pool s' = Pool st
    | ack :: _ =>
        if decide (ack = StreamExited) then
          r = Done tt s' ∧
          Trace s' = Trace st ++ [EvSend cin StreamQuit;
                                  EvRecv cout StreamExited; EvDelete ePath] ∧
          Pool s' = delete ePath (Pool st) ∧
          Mutex s' = false
        else
          r = Fatal s' ∧
          Trace s' = Trace st ++ [EvSend cin StreamQuit; EvRecv cout ack] ∧
          Pool s' = Pool st
    end.
Proof.
  intros Hop Hp Hin Hout Hs Hd Hdrop H0 Hlt Hmax.
  assert (E1 : (time_sub (w_now W (S (Tick st))) (LastTry e)
                <? cfg_dropDuration cfg) = false) by (apply Z.ltb_ge; lia).
  assert (E2 : (LastSize e =? fi_Size fi) = false) by (apply Z.eqb_neq; lia).
  assert (E3 : (sub64 (fi_Size fi) (LastSize e) <? 0) = true).
  { unfold sub64. rewrite wrap64_small; [apply Z.ltb_lt; lia|].
    unfold min_int64, max_int64 in *. lia. }
  rewrite handle_event_write by done.
  unfold on_Write. destruct (Mutex st) eqn:Hm; exec; [done|].
  destruct (Inbox st !! cout) as [[|ack acks]|] eqn:Hin'; exec;
    [|destruct (decide (ack = StreamExited)) as [->|Hne]; exec|];
    rewrite <- ?app_assoc; done.
Qed.

(** C6, where the code is at fault.  A write notification for a tracked
    file that passes the debounce and the size-equality checks and shows
    positive growth, in a watcher that [scatCmd] configured from the [delta]
    flag.  When the handler gets the mutex: growth below [flag * 1024], the
    product taken in Go's [int], sends nothing and leaves the registry
    unchanged; any other growth sends exactly one [Try] and sets the
    last-try timestamp of the entry to the clock reading taken after the
    send.  When the mutex is still held, as the walk callback leaves it at
    lines 223-225, the handler stops at its [Lock] of line 345, whatever the
    growth: no [Try] is sent. *)
Theorem write_growth_threshold W cfg st ePath op e cin fi flag :
  is_write op = true →
  cfg_minDelta cfg = delta_bytes flag →
  Pool st !! ePath = Some e →
  CtrlChanIn e = Some cin →
  w_stat W (Tick st) ePath = Some fi →
  fi_IsDir fi = false →
  cfg_dropDuration cfg ≤ time_sub (w_now W (S (Tick st))) (LastTry e) →
  0 ≤ LastSize e →
  LastSize e < fi_Size fi →
  fi_Size fi ≤ max_int64 →
  let r := FxWatcher.handle_event W cfg (mkFsEvent ePath op) st in
  let s' := final_state r in
  let now := w_now W (S (S (Tick st))) in
  let threshold := wrap64 (flag * 1024) in
  if Mutex st then
    r = Blocked (tick st)
  else
    r = Done tt s' ∧ Mutex s' = false ∧ Inbox s' = Inbox st ∧
    if fi_Size fi - LastSize e <? threshold then
      Trace s' = Trace st ∧ Pool s' = Pool st
    else
      Trace s' = Trace st ++ [EvSend cin StreamTry] ∧
      Pool s' = <[ePath := set_LastTry now e]> (Pool st).
Proof.
  intros Hop Hflag Hp Hin Hs Hd Hdrop H0 Hlt Hmax.
  assert (E1 : (time_sub (w_now W (S (Tick st))) (LastTry e)
                <? cfg_dropDuration cfg) = false) by (apply Z.ltb_ge; lia).
  assert (E2 : (LastSize e =? fi_Size fi) = false) by (apply Z.eqb_neq; lia).
  assert (E3 : sub64 (fi_Size fi) (LastSize e) = fi_Size fi - LastSize e).
  { apply wrap64_small. unfold min_int64, max_int64 in *. lia. }
  assert (E4 : (fi_Size fi - LastSize e <? 0) = false)
    by (apply Z.ltb_ge; lia).
  rewrite handle_event_write by done.
  change (wrap64 (flag * 1024)) with (delta_bytes flag).
  unfold on_Write. destruct (Mutex st) eqn:Hm; exec; [done|].
  destruct (fi_Size fi - LastSize e <? delta_bytes flag) eqn:E5; exec; done.
Qed.

(** ** Debouncing *)

(** One write notification inside the debounce window leaves the registry
    and the trace as they were, whatever [os.Stat] answers. *)
Lemma write_debounced W cfg st ePath op e :
  is_write op = true →
  Mutex st = false →
  Pool st !! ePath = Some e →
  (∀ t, (Tick st ≤ t)%nat →
        time_sub (w_now W t) (LastTry e) < cfg_dropDuration cfg) →
  let r := FxWatcher.handle_event W cfg (mkFsEvent ePath op) st in
  let s' := final_state r in
  Trace s' = Trace st ∧ Pool s' = Pool st ∧ Inbox s' = Inbox st ∧
  (Tick st ≤ Tick s')%nat ∧
  (is_done r = true → Mutex s' = false).
Proof.
  intros Hop Hm Hp Hwin.
  assert (E1 : (time_sub (w_now W (S (Tick st))) (LastTry e)
                <? cfg_dropDuration cfg) = true)
    by (apply Z.ltb_lt, Hwin; lia).
  rewrite handle_event_write by done.
  unfold on_Write. exec.
  destruct (w_stat W (Tick st) ePath) as [fi|]; exec.
  - destruct (fi_IsDir fi); exec; repeat split; (done || lia).
  - destruct (cfg_checkError cfg); exec; repeat split; (done || lia).
Qed.

(** C5.  For any sequence of write notifications for one tracked file: as
    long as every clock reading is less than the debounce interval away from
    the last-try timestamp of the entry, nothing is sent, no [Try] in
    particular, and the registry is unchanged, whatever sizes [os.Stat]
    reports. *)
Theorem debounce_blocks_try W cfg events st ePath e :
  Forall (λ ev, ev_Name ev = ePath ∧ is_write (ev_Op ev) = true) events →
  Mutex st = false →
  Pool st !! ePath = Some e →
  (∀ t, (Tick st ≤ t)%nat →
        time_sub (w_now W t) (LastTry e) < cfg_dropDuration cfg) →
  let s' := final_state (FxWatcher.handle_events W cfg events st) in
  Trace s' = Trace st ∧ Pool s' = Pool st.
Proof.
  intros Hevs. revert st.
  induction Hevs as [|[name op] events [Hname Hop] _ IH];
    intros st Hm Hp Hwin; [done|].
  simpl in Hname, Hop. subst name.
  destruct (write_debounced W cfg st ePath op e Hop Hm Hp Hwin)
    as (Ht & Hpool & _ & Htick & Hmx).
  cbn [handle_events]. unfold bind.
  destruct (handle_event W cfg (mkFsEvent ePath op) st) as [[] s1|s1|s1|s1];
    simpl in *; try done.
  destruct (IH s1) as [IHt IHp].
  - by apply Hmx.
  - by rewrite Hpool.
  - intros t Ht'. apply Hwin. lia.
  - split; congruence.
Qed.

(** ** The shutdown sweep *)

Lemma first_reply_not_EOF l : first_reply l ≠ Some StreamEOF.
Proof.
  unfold first_reply. induction l as [|j rest IH]; [done|].
  destruct j; simpl; congruence.
Qed.

(** The [range] loop takes the leading [EOF]s and the reply after them; it
    ends well exactly when that reply is [Exited]. *)
Lemma range_acks_reply c acks : ∀ s a,
  first_reply acks = Some a →
  let n := leading_EOFs acks in
  let s' := mkState (Pool s) (Mutex s) (<[c := drop (S n) acks]> (Inbox s))
                    (NextChan s) (Tick s)
                    (Trace s ++ replicate n (EvRecv c StreamEOF) ++
                     [EvRecv c a]) in
  range_acks c acks s
  = if decide (a = StreamExited) then Done tt s' else Fatal s'.
Proof.
  induction acks as [|j rest IH]; intros s a Ha; [done|].
  destruct (decide (j = StreamEOF)) as [->|Hj].
  - cbn [range_acks leading_EOFs].
    destruct (decide (StreamEOF = StreamExited)) as [|_]; [done|].
    destruct (decide (StreamEOF = StreamEOF)) as [_|]; [|done].
    rewrite (IH _ a) by exact Ha. simpl.
    rewrite insert_insert_eq, <- app_assoc. done.
  - assert (Hn : leading_EOFs (j :: rest) = O) by (by destruct j).
    unfold first_reply in Ha. rewrite Hn in Ha. simpl in Ha.
    injection Ha as ->. cbn [range_acks]. rewrite Hn. simpl.
    rewrite drop_0.
    destruct (decide (a = StreamExited)); [done|].
    destruct (decide (a = StreamEOF)); done.
Qed.

(** A session that sends [EOF]s and then nothing more: the [range] loop
    takes them all and waits. *)
Lemma range_acks_silent c acks : ∀ s,
  first_reply acks = None →
  ∃ s', range_acks c acks s = Blocked s' ∧ Pool s' = Pool s ∧
        Trace s' = Trace s ++ replicate (length acks) (EvRecv c StreamEOF).
Proof.
  induction acks as [|j rest IH]; intros s Ha.
  - exists s. simpl. by rewrite app_nil_r.
  - destruct (decide (j = StreamEOF)) as [->|Hj].
    + cbn [range_acks].
      destruct (decide (StreamEOF = StreamExited)) as [|_]; [done|].
      destruct (decide (StreamEOF = StreamEOF)) as [_|]; [|done].
      edestruct IH as (s' & -> & Hpool & Htr); [exact Ha|].
      exists s'. split; [done|]. split; [done|].
      rewrite Htr. simpl. by rewrite <- app_assoc.
    + assert (Hn : leading_EOFs (j :: rest) = O) by (by destruct j).
      unfold first_reply in Ha. by rewrite Hn in Ha.
Qed.

Lemma agree_session_out s s1 q :
  agree_on s s1 q → session_out s1 q = session_out s q.
Proof. intros [Hp _]. unfold session_out. by rewrite Hp. Qed.

Lemma agree_sweep_script s s1 q :
  agree_on s s1 q → sweep_script s1 q = sweep_script s q.
Proof.
  intros [Hp Hi]. unfold sweep_script, session_out in *. rewrite Hp.
  destruct (Pool s !! q) as [w|]; [|done].
  destruct (IsDir w); [done|].
  destruct (CtrlChanIn w); [|done].
  destruct (CtrlChanOut w) as [cout|]; [|done].
  simpl. by rewrite Hi.
Qed.

Lemma agree_answers s s1 q w :
  agree_on s s1 q → Pool s !! q = Some w →
  answers_Exited s w → answers_Exited s1 w.
Proof.
  intros [Hp Hi] Hw Ha Hd. specialize (Ha Hd).
  unfold session_out in Hi. rewrite Hw, Hd in Hi.
  destruct (CtrlChanOut w) as [cout|]; [|done].
  simpl in *. by rewrite Hi.
Qed.

Lemma flat_map_agree {A B} (f g : A → list B) (l : list A) :
  (∀ x, x ∈ l → f x = g x) → flat_map f l = flat_map g l.
Proof.
  induction l as [|x l IH]; intros H; [done|]. simpl.
  rewrite H by left. rewrite IH; [done|]. intros y Hy. apply H. by right.
Qed.

(** One well-behaved entry. *)
Lemma sweep_entry_answers s p w :
  Pool s !! p = Some w → has_session w → answers_Exited s w →
  ∃ s', sweep_entry p w s = Done tt s' ∧
        Pool s' = delete p (Pool s) ∧
        Mutex s' = Mutex s ∧
        Trace s' = Trace s ++ sweep_script s p ∧
        (∀ c, session_out s p ≠ Some c → Inbox s' !! c = Inbox s !! c).
Proof.
  intros Hw Hs Ha. unfold sweep_entry, sweep_script, session_out.
  rewrite Hw. unfold has_session, answers_Exited in *.
  destruct (IsDir w) eqn:Hd.
  - exec. eexists. split; [done|]. simpl. rewrite <- app_assoc. done.
  - destruct Hs as [[cin Hin] [cout Hout]]; [done|]. specialize (Ha eq_refl).
    rewrite Hin, Hout in *. simpl in Ha. exec.
    unfold range_CtrlChanOut.
    rewrite (range_acks_reply cout _ _ StreamExited) by exact Ha.
    simpl. eexists. split; [done|]. simpl.
    rewrite <- !app_assoc. simpl. repeat split; try done.
    intros c Hc. rewrite lookup_insert_ne; [done|congruence].
Qed.

(** One entry whose session replies with something else. *)
Lemma sweep_entry_refused s p w cin cout a :
  IsDir w = false → CtrlChanIn w = Some cin → CtrlChanOut w = Some cout →
  first_reply (pending s (Some cout)) = Some a → a ≠ StreamExited →
  ∃ s', sweep_entry p w s = Fatal s' ∧
        Pool s' = Pool s ∧
        Trace s' = Trace s ++ [EvWatchRemove p; EvSend cin StreamQuit] ++
                   replicate (leading_EOFs (pending s (Some cout)))
                             (EvRecv cout StreamEOF) ++ [EvRecv cout a].
Proof.
  intros Hd Hin Hout Ha Hne. unfold sweep_entry. exec.
  unfold range_CtrlChanOut. simpl in Ha.
  rewrite (range_acks_reply cout _ _ a) by exact Ha.
  destruct (decide (a = StreamExited)); [done|].
  eexists. split; [done|]. simpl. rewrite <- !app_assoc. done.
Qed.

(** One entry whose session sends [EOF]s at most. *)
Lemma sweep_entry_silent s p w cin cout :
  IsDir w = false → CtrlChanIn w = Some cin → CtrlChanOut w = Some cout →
  first_reply (pending s (Some cout)) = None →
  ∃ s', sweep_entry p w s = Blocked s' ∧
        Pool s' = Pool s ∧
        Trace s' = Trace s ++ [EvWatchRemove p; EvSend cin StreamQuit] ++
                   replicate (length (pending s (Some cout)))
                             (EvRecv cout StreamEOF).
Proof.
  intros Hd Hin Hout Ha. unfold sweep_entry. exec.
  unfold range_CtrlChanOut. simpl in Ha.
  edestruct (range_acks_silent cout) as (s' & -> & Hpool & Htr); [exact Ha|].
  exists s'. split; [done|]. split; [done|].
  rewrite Htr. simpl. rewrite <- !app_assoc. done.
Qed.

Lemma omap_agree {A B} (f g : A → option B) (l : list A) :
  (∀ x, x ∈ l → f x = g x) → omap f l = omap g l.
Proof.
  induction l as [|x l IH]; intros H; [done|]. csimpl.
  rewrite H by left. rewrite IH; [done|]. intros y Hy. apply H. by right.
Qed.

Lemma sweep_app l1 l2 s :
  sweep (l1 ++ l2) s = (sweep l1 >>> sweep l2) s.
Proof.
  revert s. induction l1 as [|p l1 IH]; intros s; [done|].
  cbn [sweep app]. unfold bind, pool_lookup.
  destruct (Pool s !! p) as [w|]; [destruct (sweep_entry p w s)|];
    try done; apply IH.
Qed.

(** The sweep over well-behaved entries, by induction on the visiting
    order. *)
Lemma sweep_answers l : ∀ s,
  NoDup l →
  Forall (sweepable s) l →
  NoDup (omap (session_out s) l) →
  ∃ s', sweep l s = Done tt s' ∧
        (∀ q, Pool s' !! q = if decide (q ∈ l) then None else Pool s !! q) ∧
        Mutex s' = Mutex s ∧
        Trace s' = Trace s ++ flat_map (sweep_script s) l ∧
        (∀ c, c ∉ omap (session_out s) l → Inbox s' !! c = Inbox s !! c).
Proof.
  induction l as [|p l IH]; intros s Hnd Hall Hch.
  - exists s. simpl. rewrite app_nil_r. repeat split; try done.
  - apply NoDup_cons in Hnd as [Hp Hnd].
    apply Forall_cons in Hall as [(w & Hw & Hs & Ha) Hall].
    destruct (sweep_entry_answers s p w Hw Hs Ha)
      as (s1 & Hrun & Hpool & Hmx & Htr & Hin).
    assert (Hagree : ∀ q, q ∈ l → agree_on s s1 q).
    { intros q Hq. split.
      - rewrite Hpool. apply lookup_delete_ne. intros ->. done.
      - intros c Hc. apply Hin. intros Hpc.
        simpl in Hch. rewrite Hpc in Hch.
        apply NoDup_cons in Hch as [Hch _]. apply Hch.
        apply list_elem_of_omap. eauto. }
    assert (Hout : omap (session_out s1) l = omap (session_out s) l).
    { apply omap_agree. intros q Hq. by apply agree_session_out, Hagree. }
    destruct (IH s1) as (s' & Hrun' & Hpool' & Hmx' & Htr' & Hin').
    + done.
    + apply Forall_forall. intros q Hq.
      rewrite Forall_forall in Hall.
      destruct (Hall q Hq) as (v & Hv & Hsv & Hav).
      exists v. destruct (Hagree q Hq) as [Hpq _].
      split; [by rewrite Hpq|]. split; [done|].
      apply (agree_answers s s1 q); auto.
    + rewrite Hout. simpl in Hch.
      destruct (session_out s p); [by apply NoDup_cons in Hch as [_ ?]|done].
    + exists s'. split.
      { simpl. unfold bind at 1. unfold pool_lookup. rewrite Hw.
        unfold bind at 1. by rewrite Hrun. }
      split.
      { intros q. rewrite Hpool', Hpool.
        destruct (decide (q = p)) as [->|Hqp].
        - rewrite lookup_delete_eq.
          rewrite (decide_True (P := p ∈ p :: l)) by left.
          by destruct (decide (p ∈ l)).
        - rewrite lookup_delete_ne by done.
          destruct (decide (q ∈ l)) as [Hq|Hq].
          + rewrite decide_True; [done|by right].
          + rewrite decide_False; [done|].
            intros [?|?]%elem_of_cons; done. }
      split; [congruence|]. split.
      { rewrite Htr', Htr. simpl. rewrite <- app_assoc. f_equal. f_equal.
        apply flat_map_agree. intros q Hq.
        by apply agree_sweep_script, Hagree. }
      intros c Hc. rewrite Hin'.
      * apply Hin. intros Hpc. apply Hc. simpl. rewrite Hpc. left.
      * rewrite Hout. intros Hc'. apply Hc. simpl.
        destruct (session_out s p); [by right|done].
Qed.

(** A sweep that finds the mutex free and every session answering. *)
Lemma on_shutdown_answers st order :
  Mutex st = false →
  NoDup order →
  dom (Pool st) = list_to_set order →
  map_Forall (λ _ w, has_session w) (Pool st) →
  NoDup (omap (session_out st) order) →
  map_Forall (λ _ w, answers_Exited st w) (Pool st) →
  ∃ s', on_shutdown order st = Done tt s' ∧ Pool s' = ∅ ∧ Mutex s' = false ∧
        Trace s' = Trace st ++ flat_map (sweep_script st) order ++
                   [EvNotify watchDone].
Proof.
  intros Hm Hnd Hdom Hsess Hch Hans.
  assert (Htracked : ∀ q, q ∈ order → is_Some (Pool st !! q)).
  { intros q Hq. apply elem_of_dom. rewrite Hdom.
    by apply elem_of_list_to_set. }
  set (s0 := with_Mutex true st).
  assert (Hlock : on_shutdown order st
                  = (sweep order >>> unlock >>>
                     modify (emit (EvNotify watchDone))) s0).
  { unfold on_shutdown. unfold bind at 1. unfold lock. by rewrite Hm. }
  rewrite Hlock. clear Hlock.
  destruct (sweep_answers order s0) as (s1 & Hrun & Hpool & Hmx & Htr & _).
  - done.
  - apply Forall_forall. intros q Hq.
    destruct (Htracked q Hq) as [w Hw]. exists w.
    split; [done|]. split; [exact (Hsess q w Hw)|exact (Hans q w Hw)].
  - done.
  - unfold bind. rewrite Hrun. unfold unlock. rewrite Hmx. simpl.
    eexists. split; [done|]. simpl. repeat split.
    + apply map_eq. intros q. rewrite Hpool, lookup_empty.
      destruct (decide (q ∈ order)) as [|Hq]; [done|].
      change (Pool s0) with (Pool st).
      apply not_elem_of_dom. rewrite Hdom.
      by rewrite elem_of_list_to_set.
    + rewrite Htr. by rewrite <- app_assoc.
Qed.

(** A sweep that reaches a session replying with something else. *)
Lemma on_shutdown_refused st pre p post w cin cout a :
  Mutex st = false →
  NoDup (pre ++ p :: post) →
  dom (Pool st) = list_to_set (pre ++ p :: post) →
  map_Forall (λ _ w, has_session w) (Pool st) →
  NoDup (omap (session_out st) (pre ++ p :: post)) →
  Forall (λ q, ∀ v, Pool st !! q = Some v → answers_Exited st v) pre →
  Pool st !! p = Some w →
  IsDir w = false →
  CtrlChanIn w = Some cin →
  CtrlChanOut w = Some cout →
  first_reply (pending st (Some cout)) = Some a →
  a ≠ StreamExited →
  ∃ s', on_shutdown (pre ++ p :: post) st = Fatal s' ∧
        Pool s' !! p = Some w ∧
        Trace s' = Trace st ++ flat_map (sweep_script st) pre ++
                   [EvWatchRemove p; EvSend cin StreamQuit] ++
                   replicate (leading_EOFs (pending st (Some cout)))
                             (EvRecv cout StreamEOF) ++
                   [EvRecv cout a].
Proof.
  intros Hm Hnd Hdom Hsess Hch Hpre Hw Hd Hin Hout Ha Hne.
  assert (Htracked : ∀ q, q ∈ pre ++ p :: post → is_Some (Pool st !! q)).
  { intros q Hq. apply elem_of_dom. rewrite Hdom.
    by apply elem_of_list_to_set. }
  set (s0 := with_Mutex true st).
  assert (Hlock : on_shutdown (pre ++ p :: post) st
                  = (sweep (pre ++ p :: post) >>> unlock >>>
                     modify (emit (EvNotify watchDone))) s0).
  { unfold on_shutdown. unfold bind at 1. unfold lock. by rewrite Hm. }
  rewrite Hlock. clear Hlock.
  apply NoDup_app in Hnd as (Hnd1 & Hsep & Hnd2).
  rewrite omap_app in Hch. apply NoDup_app in Hch as (Hch1 & Hchsep & _).
  destruct (sweep_answers pre s0) as (s1 & Hrun & Hpool & Hmx & Htr & Hinb).
  - done.
  - apply Forall_forall. intros q Hq.
    destruct (Htracked q) as [v Hv]; [apply elem_of_app; by left|].
    exists v. split; [done|]. split; [exact (Hsess q v Hv)|].
    rewrite Forall_forall in Hpre. by apply (Hpre q Hq).
  - done.
  - assert (Hw1 : Pool s1 !! p = Some w).
    { rewrite Hpool. rewrite decide_False; [done|].
      intros Hp. apply (Hsep p Hp). left. }
    assert (Hc : cout ∉ omap (session_out s0) pre).
    { intros Hc. apply (Hchsep cout Hc). csimpl.
      unfold session_out at 1. rewrite Hw, Hd, Hout. left. }
    destruct (sweep_entry_refused s1 p w cin cout a)
      as (s2 & Hrun2 & Hp2 & Htr2); try done.
    { simpl. rewrite (Hinb cout Hc). exact Ha. }
    exists s2. split.
    { unfold bind at 1. rewrite sweep_app. unfold bind at 1. rewrite Hrun.
      cbn [sweep]. unfold bind at 1 2. unfold pool_lookup. rewrite Hw1.
      by rewrite Hrun2. }
    split; [congruence|].
    rewrite Htr2, Htr. simpl pending. rewrite (Hinb cout Hc).
    rewrite <- !app_assoc. done.
Qed.

(** A sweep that reaches a session sending [EOF]s at most. *)
Lemma on_shutdown_silent st pre p post w cin cout :
  Mutex st = false →
  NoDup (pre ++ p :: post) →
  dom (Pool st) = list_to_set (pre ++ p :: post) →
  map_Forall (λ _ w, has_session w) (Pool st) →
  NoDup (omap (session_out st) (pre ++ p :: post)) →
  Forall (λ q, ∀ v, Pool st !! q = Some v → answers_Exited st v) pre →
  Pool st !! p = Some w →
  IsDir w = false →
  CtrlChanIn w = Some cin →
  CtrlChanOut w = Some cout →
  first_reply (pending st (Some cout)) = None →
  ∃ s', on_shutdown (pre ++ p :: post) st = Blocked s' ∧
        Pool s' !! p = Some w ∧
        Trace s' = Trace st ++ flat_map (sweep_script st) pre ++
                   [EvWatchRemove p; EvSend cin StreamQuit] ++
                   replicate (length (pending st (Some cout)))
                             (EvRecv cout StreamEOF).
Proof.
  intros Hm Hnd Hdom Hsess Hch Hpre Hw Hd Hin Hout Ha.
  assert (Htracked : ∀ q, q ∈ pre ++ p :: post → is_Some (Pool st !! q)).
  { intros q Hq. apply elem_of_dom. rewrite Hdom.
    by apply elem_of_list_to_set. }
  set (s0 := with_Mutex true st).
  assert (Hlock : on_shutdown (pre ++ p :: post) st
                  = (sweep (pre ++ p :: post) >>> unlock >>>
                     modify (emit (EvNotify watchDone))) s0).
  { unfold on_shutdown. unfold bind at 1. unfold lock. by rewrite Hm. }
  rewrite Hlock. clear Hlock.
  apply NoDup_app in Hnd as (Hnd1 & Hsep & Hnd2).
  rewrite omap_app in Hch. apply NoDup_app in Hch as (Hch1 & Hchsep & _).
  destruct (sweep_answers pre s0) as (s1 & Hrun & Hpool & Hmx & Htr & Hinb).
  - done.
  - apply Forall_forall. intros q Hq.
    destruct (Htracked q) as [v Hv]; [apply elem_of_app; by left|].
    exists v. split; [done|]. split; [exact (Hsess q v Hv)|].
    rewrite Forall_forall in Hpre. by apply (Hpre q Hq).
  - done.
  - assert (Hw1 : Pool s1 !! p = Some w).
    { rewrite Hpool. rewrite decide_False; [done|].
      intros Hp. apply (Hsep p Hp). left. }
    assert (Hc : cout ∉ omap (session_out s0) pre).
    { intros Hc. apply (Hchsep cout Hc). csimpl.
      unfold session_out at 1. rewrite Hw, Hd, Hout. left. }
    destruct (sweep_entry_silent s1 p w cin cout)
      as (s2 & Hrun2 & Hp2 & Htr2); try done.
    { simpl. rewrite (Hinb cout Hc). exact Ha. }
    exists s2. split.
    { unfold bind at 1. rewrite sweep_app. unfold bind at 1. rewrite Hrun.
      cbn [sweep]. unfold bind at 1 2. unfold pool_lookup. rewrite Hw1.
      by rewrite Hrun2. }
    split; [congruence|].
    rewrite Htr2, Htr. simpl pending. rewrite (Hinb cout Hc).
    rewrite <- !app_assoc. done.
Qed.

(** C7, where the code is at fault.  The coordinator's broadcast reaches a
    watcher whose registry is visited once per entry and whose file entries
    each hold the two channels of their session.  When the watcher gets the
    mutex: if every session answers [Quit] with [Exited] after any number of
    [EOF]s, the sweep drops each directory, sends each file [Quit], takes
    the [EOF]s and the [Exited], deletes the entry only then, ends with an
    empty registry and sends the terminal acknowledgment last, and only then
    does the coordinator go on to the next root; as soon as the first reply
    of a session other than [EOF] is not [Exited], the process ends there,
    with that entry still in the registry and no terminal acknowledgment;
    and at a session that sends [EOF]s at most the watcher waits on, so the
    coordinator never returns.  When the mutex is still held, as the walk
    callback leaves it at lines 223-225, the watcher stops at its [Lock] of
    line 247: no entry is dropped, no [Quit] is sent, no terminal
    acknowledgment follows, and the coordinator never returns. *)
Theorem shutdown_sweep_handshake st order rest :
  NoDup order →
  dom (Pool st) = list_to_set order →
  map_Forall (λ _ w, has_session w) (Pool st) →
  NoDup (omap (session_out st) order) →
  let r := FxWatcher.on_shutdown order st in
  let s' := final_state r in
  let b := Coordinator.broadcast (mkRoot true st order :: rest) in
  if Mutex st then
    r = Blocked st ∧ b = None
  else
    (map_Forall (λ _ w, answers_Exited st w) (Pool st) →
     r = Done tt s' ∧ Pool s' = ∅ ∧ Mutex s' = false ∧
     Trace s' = Trace st ++ flat_map (sweep_script st) order ++
                [EvNotify watchDone] ∧
     b = cons s' <$> Coordinator.broadcast rest)
    ∧
    (∀ pre p post w cin cout,
       order = pre ++ p :: post →
       Forall (λ q, ∀ v, Pool st !! q = Some v → answers_Exited st v) pre →
       Pool st !! p = Some w →
       IsDir w = false →
       CtrlChanIn w = Some cin →
       CtrlChanOut w = Some cout →
       match first_reply (pending st (Some cout)) with
       | Some a =>
           a ≠ StreamExited →
           r = Fatal s' ∧ Pool s' !! p = Some w ∧
           Trace s' = Trace st ++ flat_map (sweep_script st) pre ++
                      [EvWatchRemove p; EvSend cin StreamQuit] ++
                      replicate (leading_EOFs (pending st (Some cout)))
                                (EvRecv cout StreamEOF) ++
                      [EvRecv cout a] ∧
           b = None
       | None =>
           r = Blocked s' ∧ Pool s' !! p = Some w ∧
           Trace s' = Trace st ++ flat_map (sweep_script st) pre ++
                      [EvWatchRemove p; EvSend cin StreamQuit] ++
                      replicate (length (pending st (Some cout)))
                                (EvRecv cout StreamEOF) ∧
           b = None
       end).
Proof.
  intros Hnd Hdom Hsess Hch r s' b. subst r s' b. cbn [broadcast r_live
    r_watcher r_order].
  destruct (Mutex st) eqn:Hm.
  - assert (Hrun : on_shutdown order st = Blocked st).
    { unfold on_shutdown, bind, lock. by rewrite Hm. }
    by rewrite Hrun.
  - split.
    + intros Hans.
      destruct (on_shutdown_answers st order)
        as (s' & -> & H1 & H2 & H3); done.
    + intros pre p post w cin cout -> Hpre Hw Hd Hin Hout.
      destruct (first_reply (pending st (Some cout))) as [a|] eqn:Ha.
      * intros Hne.
        destruct (on_shutdown_refused st pre p post w cin cout a)
          as (s' & -> & H1 & H2); done.
      * destruct (on_shutdown_silent st pre p post w cin cout)
          as (s' & -> & H1 & H2); done.
Qed.

(** X24.  When the coordinator broadcasts to roots whose sessions all
    answer, it gets to [return], and by then every addressed registry is
    empty and the terminal acknowledgment is the last thing its watcher
    did. *)
Lemma broadcast_clears_registries roots :
  Forall (λ r, r_live r = true →
               Mutex (r_watcher r) = false ∧
               NoDup (r_order r) ∧
               dom (Pool (r_watcher r)) = list_to_set (r_order r) ∧
               map_Forall (λ _ w, has_session w) (Pool (r_watcher r)) ∧
               NoDup (omap (session_out (r_watcher r)) (r_order r)) ∧
               map_Forall (λ _ w, answers_Exited (r_watcher r) w)
                          (Pool (r_watcher r))) roots →
  ∃ states, broadcast roots = Some states ∧
            Forall2 (λ r s, r_live r = true →
                            Pool s = ∅ ∧
                            last (Trace s) = Some (EvNotify watchDone))
                    roots states.
Proof.
  induction 1 as [|r roots Hr _ (states & Hrun & Hall)]; simpl.
  - exists []. by split.
  - destruct (r_live r) eqn:Hlive.
    + destruct (Hr eq_refl) as (H1 & H2 & H3 & H4 & H5 & H6).
      destruct (on_shutdown_answers _ _ H1 H2 H3 H4 H5 H6)
        as (s' & -> & Hpool & _ & Htr).
      rewrite Hrun. exists (s' :: states). split; [done|].
      constructor; [|done]. intros _. split; [done|].
      by rewrite Htr, app_assoc, last_snoc.
    + rewrite Hrun. exists (r_watcher r :: states). split; [done|].
      constructor; [|done]. by rewrite Hlive.
Qed.

(** ** The drain loop *)





Lemma shrinks_delete p : pool_shrinks (pool_delete p).
Proof. intros s. simpl. apply delete_subseteq. Qed.

(** Lines 428-431 enter the assignment exactly when [os.Stat] fails, and
    there the nil file info is asked its size. *)
Lemma refresh_LastSize_run W ePath s :
  refresh_LastSize W ePath s
  = match w_stat W (Tick s) ePath with
    | None => Panic (tick s)
    | Some _ => Done tt (tick s)
    end.
Proof.
  unfold refresh_LastSize, bind, os_Stat.
  by destruct (w_stat W (Tick s) ePath).
Qed.






(** ** The discovery-walk callback *)

(** C10, where the code is at fault.  On a regular file that is not tracked
    and that the pattern does not match, [walkFunc] returns with the mutex
    still held: the early return of lines 223-225 does not release it, and
    the next [Lock] waits for ever. *)
Theorem walkFunc_keeps_lock_on_filtered_file W cfg st path fi :
  Mutex st = false →
  Pool st !! w_join W (cfg_dir cfg) path = None →
  fi_IsDir fi = false →
  w_match W (w_join W (cfg_dir cfg) path) = false →
  FxWatcher.walkFunc W cfg path (Some fi) st = Done tt (with_Mutex true st) ∧
  lock (with_Mutex true st) = Blocked (with_Mutex true st).
Proof.
  intros Hm Hp Hd Hre. split; [|done].
  unfold walkFunc, reFilterName. exec. done.
Qed.

(** ** Notifications for paths the registry does not hold *)

(** C4, where the code is at fault.  A rename notification for a path the
    registry does not hold makes the handler panic on the nil entry, whereas
    a remove notification for the same path releases the mutex and changes
    nothing. *)
Theorem rename_untracked_panics W cfg st ePath op :
  has_op op fsRemove = false →
  has_op op fsRename = true →
  Mutex st = false →
  Pool st !! ePath = None →
  FxWatcher.handle_event W cfg (mkFsEvent ePath op) st = Panic st ∧
  FxWatcher.handle_event W cfg (mkFsEvent ePath fsRemove) st
  = Done tt (with_Mutex false (with_Mutex true st)).
Proof.
  intros Hr Hn Hm Hp. split.
  - unfold handle_event, on_Rename. exec. done.
  - unfold handle_event, on_Remove. exec. done.
Qed.

(** C8, amended.  When [os.Stat] fails while a create notification for an
    untracked path, or a write notification for a tracked path, is handled,
    the handler does not come back: [checkError] ends the process, and were
    it to return, the nil file info would be dereferenced. *)
Theorem stat_failure_ends_process W cfg st ePath op :
  has_op op fsRemove = false →
  has_op op fsRename = false →
  Mutex st = false →
  w_stat W (Tick st) ePath = None →
  (has_op op fsCreate = true ∧ Pool st !! ePath = None) ∨
  (has_op op fsCreate = false ∧ has_op op fsWrite = true ∧
   is_Some (Pool st !! ePath)) →
  FxWatcher.handle_event W cfg (mkFsEvent ePath op) st
  = match cfg_checkError cfg with
    | ErrExits => Fatal (tick st)
    | ErrReturns => Panic (with_Mutex true (tick st))
    end.
Proof.
  intros Hr Hn Hm Hs [[Hc Hp]|(Hc & Hw & [e Hp])];
    unfold handle_event; exec.
  - unfold on_Create. exec. destruct (cfg_checkError cfg); exec; done.
  - unfold on_Write. exec. destruct (cfg_checkError cfg); exec; done.
Qed.

(** ** The coordinator *)

Lemma spawn_watchers_dirs dirs : sp_dir <$> spawn_watchers dirs = dirs.
Proof.
  unfold spawn_watchers. rewrite fmap_imap.
  rewrite (imap_const (λ d : string, d)). apply list_fmap_id.
Qed.

Lemma usable_roots_length dirs :
  "-" ∈ dirs → (length (usable_roots dirs) < length dirs)%nat.
Proof.
  assert (Hle : ∀ l, (length (usable_roots l) ≤ length l)%nat).
  { induction l as [|d l IH]; [done|]. simpl.
    destruct (decide (d ≠ "-")); simpl; lia. }
  induction dirs as [|d dirs IH]; intros Hin; [by apply elem_of_nil in Hin|].
  simpl. destruct (decide (d ≠ "-")) as [Hd|Hd].
  - apply elem_of_cons in Hin as [<-|Hin]; [done|]. simpl.
    specialize (IH Hin). lia.
  - specialize (Hle dirs). lia.
Qed.

(** C1, where the code is at fault.  When the roots contain the placeholder
    [-] next to a usable root, the run is launched with one watcher per root
    given, the placeholder included: more watchers than usable roots. *)
Theorem launch_uses_unfiltered_roots dirs :
  "-" ∈ dirs →
  usable_roots dirs ≠ [] →
  ∃ ws, scat_Run dirs = Launched ws ∧
        sp_dir <$> ws = dirs ∧
        "-" ∈ (sp_dir <$> ws) ∧
        (length (usable_roots dirs) < length ws)%nat.
Proof.
  intros Hin Hne. exists (spawn_watchers dirs). unfold scat_Run.
  assert (Hlen : (length (usable_roots dirs) =? 0)%nat = false)
    by by destruct (usable_roots dirs).
  rewrite Hlen, spawn_watchers_dirs. repeat split; [done|].
  unfold spawn_watchers. rewrite length_imap.
  by apply usable_roots_length.
Qed.

(** Whatever the [PULL] loop takes from a queue goes to standard output,
    in the order taken. *)
Lemma PULL_written j picks : ∀ c c',
  PULL j picks c = Some c' →
  written c' = written c ++ ((λ s, (Stdout, s)) <$> pulled_seqs picks).
Proof.
  induction picks as [|pick picks IH]; intros c c' Hrun; simpl in Hrun.
  - injection Hrun as <-. csimpl. by rewrite app_nil_r.
  - destruct pick as [seq|fb].
    + rewrite (IH _ _ Hrun). csimpl. by rewrite <- app_assoc.
    + csimpl. destruct (default false (allCtrlChans c !! j)).
      * destruct (decide (fb ≠ watchDone)); [done|].
        by rewrite (IH _ _ Hrun).
      * by apply IH.
Qed.

Lemma written_to_println d (seqs : list simpleSeq) :
  omap (λ w : Dest * simpleSeq, if decide (w.1 = d) then Some w.2 else None)
       ((λ s, (Stdout, s)) <$> seqs)
  = if decide (Stdout = d) then seqs else [].
Proof.
  induction seqs as [|s seqs IH]; csimpl; [by destruct (decide _)|].
  rewrite IH. by destruct (decide (Stdout = d)).
Qed.

(** C2, where the code is at fault.  Whatever the [PULL] loop takes from a
    queue is printed on standard output, in arrival order; when the
    configured output file is not [-], nothing reaches it. *)
Theorem records_bypass_output_file j picks c c' outFile :
  outFile ≠ "-" →
  PULL j picks c = Some c' →
  written_to Stdout c' = written_to Stdout c ++ pulled_seqs picks ∧
  written_to (Wopen outFile) c' = written_to (Wopen outFile) c.
Proof.
  intros Hout Hrun. apply PULL_written in Hrun.
  unfold written_to. rewrite Hrun, !omap_app, !written_to_println.
  split; [done|].
  unfold Wopen. rewrite decide_False by done. simpl. apply app_nil_r.
Qed.

(** * The statements at the sample root *)

(** The watcher starts on a root holding [a.fastq] and [notes.txt], which
    leaves the mutex held; then [a.fastq] is truncated to 0 bytes, 600 ms
    after its last try: nothing is sent.  And the same truncation seen by a
    watcher whose mutex is free and whose session answers [Exited]. *)
Lemma write_truncation_quits_witness :
  (let W := Scenes.two_files 0 in
   let cfg := Sample.config ErrExits in
   startup W cfg Scenes.boot = Done tt Scenes.started ∧
   handle_event W cfg (mkFsEvent Sample.file fsWrite) Scenes.started
   = Blocked (tick Scenes.started)) ∧
  (let st := Sample.state [StreamExited] in
   let r := handle_event (Sample.world (Some 0) 600000000)
              (Sample.config ErrExits) (mkFsEvent Sample.file fsWrite) st in
   let s' := final_state r in
   r = Done tt s' ∧
   Trace s' = Trace st ++ [EvSend 1 StreamQuit; EvRecv 2 StreamExited;
                           EvDelete Sample.file] ∧
   Pool s' = delete Sample.file (Pool st) ∧
   Mutex s' = false).
Proof.
  split; [split; [apply startup_leaves_mutex_held|]|].
  - exact (write_truncation_quits (Scenes.two_files 0)
             (Sample.config ErrExits) Scenes.started
             Sample.file fsWrite Scenes.tracked 0%nat 1%nat
             (mkFileInfo 0 false)
             eq_refl eq_refl eq_refl eq_refl eq_refl eq_refl
             ltac:(vm_compute; discriminate) ltac:(vm_compute; discriminate)
             ltac:(vm_compute; reflexivity) ltac:(vm_compute; discriminate)).
  - exact (write_truncation_quits (Sample.world (Some 0) 600000000)
             (Sample.config ErrExits) (Sample.state [StreamExited])
             Sample.file fsWrite Sample.entry 1%nat 2%nat (mkFileInfo 0 false)
             eq_refl eq_refl eq_refl eq_refl eq_refl eq_refl
             ltac:(vm_compute; discriminate) ltac:(vm_compute; discriminate)
             ltac:(vm_compute; reflexivity) ltac:(vm_compute; discriminate)).
Defined.

(** The watcher starts on a root holding [a.fastq] and [notes.txt], which
    leaves the mutex held; then [a.fastq] grows from 20480 to 30720 bytes,
    600 ms after its last try: no [Try] goes out.  And the same growth seen
    by a watcher whose mutex is free: 10240 is not below 5 * 1024, so one
    [Try] goes out. *)
Lemma write_growth_threshold_witness :
  (let W := Scenes.two_files 30720 in
   let cfg := Sample.config ErrExits in
   startup W cfg Scenes.boot = Done tt Scenes.started ∧
   handle_event W cfg (mkFsEvent Sample.file fsWrite) Scenes.started
   = Blocked (tick Scenes.started)) ∧
  (let W := Sample.world (Some 30720) 600000000 in
   let st := Sample.state [] in
   let r := handle_event W (Sample.config ErrExits)
              (mkFsEvent Sample.file fsWrite) st in
   let s' := final_state r in
   r = Done tt s' ∧ Mutex s' = false ∧ Inbox s' = Inbox st ∧
   Trace s' = Trace st ++ [EvSend 1 StreamTry] ∧
   Pool s' = <[Sample.file := set_LastTry 600000000 Sample.entry]> (Pool st)).
Proof.
  split; [split; [apply startup_leaves_mutex_held|]|].
  - exact (write_growth_threshold (Scenes.two_files 30720)
             (Sample.config ErrExits) Scenes.started
             Sample.file fsWrite Scenes.tracked 0%nat
             (mkFileInfo 30720 false) 5
             eq_refl eq_refl eq_refl eq_refl eq_refl eq_refl
             ltac:(vm_compute; discriminate) ltac:(vm_compute; discriminate)
             ltac:(vm_compute; reflexivity) ltac:(vm_compute; discriminate)).
  - exact (write_growth_threshold (Sample.world (Some 30720) 600000000)
             (Sample.config ErrExits) (Sample.state [])
             Sample.file fsWrite Sample.entry 1%nat (mkFileInfo 30720 false) 5
             eq_refl eq_refl eq_refl eq_refl eq_refl eq_refl
             ltac:(vm_compute; discriminate) ltac:(vm_compute; discriminate)
             ltac:(vm_compute; reflexivity) ltac:(vm_compute; discriminate)).
Defined.

(** Three writes, each seen 100 ms after the last try. *)
Lemma debounce_blocks_try_witness :
  let st := Sample.state [] in
  let ev := mkFsEvent Sample.file fsWrite in
  let s' := final_state (handle_events (Sample.world (Some 30720) 100000000)
                           (Sample.config ErrExits) [ev; ev; ev] st) in
  Trace s' = Trace st ∧ Pool s' = Pool st.
Proof.
  refine (debounce_blocks_try (Sample.world (Some 30720) 100000000)
            (Sample.config ErrExits)
            (replicate 3 (mkFsEvent Sample.file fsWrite))
            (Sample.state []) Sample.file Sample.entry _ eq_refl eq_refl _).
  - repeat constructor.
  - intros t _. vm_compute. reflexivity.
Defined.

(** The watcher starts on a root holding [a.fastq] and [notes.txt], which
    leaves the mutex held; then the coordinator broadcasts: the sweep does
    not begin and the coordinator never returns.  With the mutex free: both
    sessions answer [Exited], one of them after an [EOF]; a session answers
    with an unknown tag after an [EOF]; a session sends one [EOF] and
    nothing more. *)
Lemma shutdown_sweep_handshake_witness :
  (let order := [Sample.file; Sample.root] in
   startup (Scenes.two_files 0) (Sample.config ErrExits) Scenes.boot
   = Done tt Scenes.started ∧
   on_shutdown order Scenes.started = Blocked Scenes.started ∧
   broadcast [mkRoot true Scenes.started order] = None) ∧
  (let st := Sample.state2 [StreamEOF; StreamExited] [StreamExited] in
   let order := [Sample.file2; Sample.root; Sample.file] in
   let r := on_shutdown order st in
   let s' := final_state r in
   r = Done tt s' ∧ Pool s' = ∅ ∧ Mutex s' = false ∧
   Trace s' = Trace st ++ flat_map (sweep_script st) order ++
              [EvNotify watchDone] ∧
   broadcast [mkRoot true st order] = Some [s']) ∧
  (let st := Sample.state [StreamEOF; StreamOther 7] in
   let order := [Sample.root; Sample.file] in
   let r := on_shutdown order st in
   let s' := final_state r in
   r = Fatal s' ∧ Pool s' !! Sample.file = Some Sample.entry ∧
   Trace s' = [EvWatchRemove Sample.root; EvDelete Sample.root;
               EvWatchRemove Sample.file; EvSend 1 StreamQuit;
               EvRecv 2 StreamEOF; EvRecv 2 (StreamOther 7)] ∧
   broadcast [mkRoot true st order] = None) ∧
  (let st := Sample.state [StreamEOF] in
   let order := [Sample.root; Sample.file] in
   let r := on_shutdown order st in
   let s' := final_state r in
   r = Blocked s' ∧ Pool s' !! Sample.file = Some Sample.entry ∧
   Trace s' = [EvWatchRemove Sample.root; EvDelete Sample.root;
               EvWatchRemove Sample.file; EvSend 1 StreamQuit;
               EvRecv 2 StreamEOF] ∧
   broadcast [mkRoot true st order] = None).
Proof.
  assert (Hdir : ∀ acks,
            Forall (λ q, ∀ v, Pool (Sample.state acks) !! q = Some v →
                              answers_Exited (Sample.state acks) v)
                   [Sample.root]).
  { intros acks. constructor; [|constructor]. intros v Hv Hd.
    vm_compute in Hv. injection Hv as <-. discriminate Hd. }
  split; [split; [apply startup_leaves_mutex_held|]|split; [|split]].
  - refine (shutdown_sweep_handshake Scenes.started
              [Sample.file; Sample.root] [] _ _ _ _); compute_done.
  - refine (proj1 (shutdown_sweep_handshake
              (Sample.state2 [StreamEOF; StreamExited] [StreamExited])
              [Sample.file2; Sample.root; Sample.file] []
              _ _ _ _) _); compute_done.
  - refine (proj2 (shutdown_sweep_handshake
              (Sample.state [StreamEOF; StreamOther 7])
              [Sample.root; Sample.file] [] _ _ _ _)
              [Sample.root] Sample.file [] Sample.entry 1%nat 2%nat
              eq_refl (Hdir _) eq_refl eq_refl eq_refl eq_refl _);
      compute_done.
  - refine (proj2 (shutdown_sweep_handshake
              (Sample.state [StreamEOF])
              [Sample.root; Sample.file] [] _ _ _ _)
              [Sample.root] Sample.file [] Sample.entry 1%nat 2%nat
              eq_refl (Hdir _) eq_refl eq_refl eq_refl eq_refl);
      compute_done.
Defined.

(** The walker reports [/data/notes.txt], a regular file the pattern does
    not match. *)
Lemma walkFunc_keeps_lock_on_filtered_file_witness :
  let W := Sample.world (Some 20480) 0 in
  let st := Sample.state [] in
  walkFunc W (Sample.config ErrExits) "notes.txt"
           (Some (mkFileInfo 10 false)) st
  = Done tt (with_Mutex true st) ∧
  lock (with_Mutex true st) = Blocked (with_Mutex true st).
Proof.
  exact (walkFunc_keeps_lock_on_filtered_file (Sample.world (Some 20480) 0)
           (Sample.config ErrExits) (Sample.state []) "notes.txt"
           (mkFileInfo 10 false) eq_refl eq_refl eq_refl eq_refl).
Defined.

(** [/data/old.fastq] is not in the registry. *)
Lemma rename_untracked_panics_witness :
  let W := Sample.world (Some 20480) 0 in
  let st := Sample.state [] in
  handle_event W (Sample.config ErrExits)
               (mkFsEvent "/data/old.fastq" fsRename) st = Panic st ∧
  handle_event W (Sample.config ErrExits)
               (mkFsEvent "/data/old.fastq" fsRemove) st
  = Done tt (with_Mutex false (with_Mutex true st)).
Proof.
  exact (rename_untracked_panics (Sample.world (Some 20480) 0)
           (Sample.config ErrExits) (Sample.state []) "/data/old.fastq"
           fsRename eq_refl eq_refl eq_refl eq_refl).
Defined.

(** The tracked file is gone by the time its write notification is
    handled: the handler does not come back, whatever [checkError] does. *)
Lemma stat_failure_counterexample :
  let W := Sample.world None 600000000 in
  let st := Sample.state [] in
  let ev := mkFsEvent Sample.file fsWrite in
  w_stat W (Tick st) Sample.file = None ∧
  handle_event W (Sample.config ErrExits) ev st = Fatal (tick st) ∧
  handle_event W (Sample.config ErrReturns) ev st
  = Panic (with_Mutex true (tick st)).
Proof. repeat split; vm_compute; reflexivity. Qed.

Lemma stat_failure_ends_process_witness :
  let W := Sample.world None 600000000 in
  let st := Sample.state [] in
  handle_event W (Sample.config ErrExits) (mkFsEvent Sample.file fsWrite) st
  = Fatal (tick st).
Proof.
  exact (stat_failure_ends_process (Sample.world None 600000000)
           (Sample.config ErrExits) (Sample.state []) Sample.file fsWrite
           eq_refl eq_refl eq_refl eq_refl
           (or_intror (conj eq_refl (conj eq_refl (mk_is_Some _ _ eq_refl))))).
Defined.

(** [seqkit scat - /data] *)
Lemma launch_uses_unfiltered_roots_witness :
  ∃ ws, scat_Run ["-"; "/data"] = Launched ws ∧
        sp_dir <$> ws = ["-"; "/data"] ∧
        "-" ∈ (sp_dir <$> ws) ∧
        (length (usable_roots ["-"; "/data"]) < length ws)%nat.
Proof.
  exact (launch_uses_unfiltered_roots ["-"; "/data"]
           ltac:(compute_done) ltac:(compute_done)).
Defined.

(** Two records arrive on the queue of root 0 while [out.fq] is the
    configured destination. *)
Lemma records_bypass_output_file_witness :
  let c := mkCoord [true] [true] [] in
  let c' := mkCoord [true] [true] [(Stdout, "r1"); (Stdout, "r2")] in
  written_to Stdout c' = written_to Stdout c ++ ["r1"; "r2"] ∧
  written_to (Wopen "out.fq") c' = written_to (Wopen "out.fq") c.
Proof.
  exact (records_bypass_output_file 0 [GotSeq "r1"; GotSeq "r2"]
           (mkCoord [true] [true] [])
           (mkCoord [true] [true] [(Stdout, "r1"); (Stdout, "r2")])
           "out.fq" ltac:(compute_done) eq_refl).
Defined.

(** ** The scenarios of the specification, run on the model *)

(** Create, a write inside the debounce window, a write after it: one [Try]
    at creation, none for the first write, one for the second.  The last
    known size is still the size at creation: no notification updates it. *)
Example scenario_debounced_then_tried :
  let r := handle_events Sample.scenario (Sample.config ErrExits)
             [mkFsEvent Sample.file fsCreate; mkFsEvent Sample.file fsWrite;
              mkFsEvent Sample.file fsWrite] Sample.fresh in
  is_done r = true ∧
  Trace (final_state r) = [EvSpawn Sample.file 0 1; EvWatchAdd Sample.file;
                           EvSend 0 StreamTry; EvSend 0 StreamTry] ∧
  LastSize <$> Pool (final_state r) !! Sample.file = Some 0 ∧
  LastTry <$> Pool (final_state r) !! Sample.file = Some 600000000.
Proof. repeat split; vm_compute; reflexivity. Qed.

(** The file tracked at 20480 bytes is truncated to 0. *)
Example scenario_truncated :
  let r := handle_event (Sample.world (Some 0) 600000000)
             (Sample.config ErrExits) (mkFsEvent Sample.file fsWrite)
             (Sample.state [StreamExited]) in
  is_done r = true ∧
  Trace (final_state r) = [EvSend 1 StreamQuit; EvRecv 2 StreamExited;
                           EvDelete Sample.file] ∧
  Pool (final_state r) !! Sample.file = None.
Proof. repeat split; vm_compute; reflexivity. Qed.

(** One polling turn over two roots, the second of which retires. *)
Example poll_two_roots :
  poll_roots [[GotSeq "a"; GotSeq "b"]; [GotSeq "c"; GotCtrl watchDone]]
             (mkCoord [true; true] [true; true] [])
  = Some (2%nat, mkCoord [true; false] [true; false]
                   [(Stdout, "a"); (Stdout, "b"); (Stdout, "c")]).
Proof. reflexivity. Qed.

(** * Further properties of the event policy *)

(** ** Remove notifications *)



(** ** Rename notifications *)

Lemma is_rename_bits op :
  is_rename op = true →
  has_op op fsRename = true ∧ has_op op fsCreate = false ∧
  has_op op fsRemove = false ∧ has_op op fsWrite = false.
Proof.
  unfold is_rename. intros H.
  repeat (apply andb_prop in H; destruct H as [H ?]).
  repeat match goal with
         | H : negb _ = true |- _ => apply negb_true_iff in H
         end.
  auto.
Qed.

(** X3.  A rename notification for a tracked file ends its session like a
    remove does, but without taking the mutex: the mutex is left as it was
    found, held or free. *)
Theorem rename_tracked_file W cfg st ePath op e cin cout :
  is_rename op = true →
  Pool st !! ePath = Some e →
  CtrlChanIn e = Some cin →
  CtrlChanOut e = Some cout →
  let r := FxWatcher.handle_event W cfg (mkFsEvent ePath op) st in
  let s' := final_state r in
  Mutex s' = Mutex st ∧
  match pending st (Some cout) with
  | [] =>
      r = Blocked s' ∧
      Trace s' = Trace st ++ [EvSend cin StreamQuit] ∧ Pool s' = Pool st
  | ack :: _ =>
      if decide (ack = StreamExited) then
        r = Done tt s' ∧
        Trace s' = Trace st ++ [EvSend cin StreamQuit;
                                EvRecv cout StreamExited; EvDelete ePath] ∧
        Pool s' = delete ePath (Pool st)
      else
        r = Fatal s' ∧
        Trace s' = Trace st ++ [EvSend cin StreamQuit; EvRecv cout ack] ∧
        Pool s' = Pool st
  end.
Proof.
  intros Hop Hp Hin Hout.
  apply is_rename_bits in Hop as (Hn & Hc & Hr & Hw).
  unfold handle_event, on_Rename. exec.
  destruct (Inbox st !! cout) as [[|ack acks]|] eqn:Hin'; exec;
    [|destruct (decide (ack = StreamExited)) as [->|Hne]; exec|];
    rewrite <- ?app_assoc; done.
Qed.

(** X4.  A rename notification for a tracked entry without a request
    channel, as every directory entry is, stops the event goroutine for
    good: the send on the nil channel never completes, and nothing has
    changed. *)
Theorem rename_tracked_directory_blocks W cfg st ePath op e :
  has_op op fsRemove = false →
  has_op op fsRename = true →
  Pool st !! ePath = Some e →
  CtrlChanIn e = None →
  FxWatcher.handle_event W cfg (mkFsEvent ePath op) st = Blocked st.
Proof.
  intros Hr Hn Hp Hin. unfold handle_event, on_Rename. exec. done.
Qed.

(** ** Create notifications *)

(** X5.  A notification carrying the create bit for a path that is already
    tracked is dropped whole: the state is exactly what it was, even when
    the write bit is set too. *)
Theorem create_tracked_is_dropped W cfg st ePath op e :
  has_op op fsRemove = false →
  has_op op fsRename = false →
  has_op op fsCreate = true →
  Pool st !! ePath = Some e →
  FxWatcher.handle_event W cfg (mkFsEvent ePath op) st = Done tt st.
Proof.
  intros Hr Hn Hc Hp. unfold handle_event, on_Create. exec. done.
Qed.




(** ** Write notifications that change nothing *)


(** * The discovery walk *)

Lemma restore_mutex st :
  Mutex st = false → with_Mutex false (with_Mutex true st) = st.
Proof. destruct st. simpl. by intros ->. Qed.



(** The callback on a tracked path gives the state back as it was. *)
Lemma walkFunc_tracked W cfg st path info :
  Mutex st = false →
  is_Some (Pool st !! w_join W (cfg_dir cfg) path) →
  walkFunc W cfg path info st = Done tt st.
Proof.
  intros Hm [e Hp]. unfold walkFunc. exec. f_equal. by apply restore_mutex.
Qed.

Lemma walk_entries_tracked W cfg l st :
  Mutex st = false →
  Forall (λ x, is_Some (Pool st !! w_join W (cfg_dir cfg) x.1)) l →
  walk_entries W cfg l st = Done tt st.
Proof.
  intros Hm. induction 1 as [|[p info] l Hp _ IH]; [done|].
  cbn [walk_entries]. unfold bind.
  by rewrite (walkFunc_tracked W cfg st p info Hm Hp).
Qed.

Lemma walk_entries_app W cfg l1 l2 s :
  walk_entries W cfg (l1 ++ l2) s
  = (walk_entries W cfg l1 >>> walk_entries W cfg l2) s.
Proof.
  revert s. induction l1 as [|[p info] l1 IH]; intros s; [done|].
  cbn [walk_entries app]. unfold bind.
  destruct (walkFunc W cfg p info s); first [done | apply IH].
Qed.

(** What a callback that returns has done. *)
Lemma walkFunc_done W cfg p info st s1 :
  walkFunc W cfg p info st = Done tt s1 →
  Mutex st = false ∧ Pool st ⊆ Pool s1 ∧
  (Mutex s1 = false → is_Some (Pool s1 !! w_join W (cfg_dir cfg) p)).
Proof.
  unfold walkFunc, reFilterName, NewRawSeqStreamFromFile, watcher_Add.
  exec_unfold. intros H.
  repeat case_match; simplify_eq/=;
    repeat split; try done;
    try (by apply insert_subseteq);
    try (intros _; by rewrite lookup_insert_eq);
    try (intros _; by eexists).
Qed.

Lemma walk_entries_done W cfg l : ∀ st s1,
  walk_entries W cfg l st = Done tt s1 →
  Mutex s1 = false →
  Pool st ⊆ Pool s1 ∧
  Forall (λ x, is_Some (Pool s1 !! w_join W (cfg_dir cfg) x.1)) l.
Proof.
  induction l as [|[p info] l IH]; intros st s1 Hrun Hm1.
  - by injection Hrun as <-.
  - cbn [walk_entries] in Hrun. unfold bind in Hrun.
    destruct (walkFunc W cfg p info st) as [[] s0| | |] eqn:Hw; try done.
    apply walkFunc_done in Hw as (Hm & Hsub & Hreg).
    destruct (IH s0 s1 Hrun Hm1) as [Hsub' Hall].
    split; [by etrans|]. constructor; [|done]. simpl.
    assert (Hm0 : Mutex s0 = false).
    { destruct l as [|[q i] l]; [by injection Hrun as <-|].
      cbn [walk_entries] in Hrun. unfold bind in Hrun.
      destruct (walkFunc W cfg q i s0) as [[] s2| | |] eqn:Hw2; try done.
      by apply walkFunc_done in Hw2 as (? & _). }
    destruct (Hreg Hm0) as [e He]. exists e.
    by apply (lookup_weaken _ _ _ _ He).
Qed.

(** X12.  A walk that returns with the mutex released has registered every
    path it visited and has removed nothing; walking again over any of
    those paths, whatever the walker reports about them, changes
    nothing. *)
Theorem walk_registers_then_repeats W cfg l l' st s1 :
  walk_entries W cfg l st = Done tt s1 →
  Mutex s1 = false →
  l'.*1 ⊆ l.*1 →
  Pool st ⊆ Pool s1 ∧
  Forall (λ x, is_Some (Pool s1 !! w_join W (cfg_dir cfg) x.1)) l ∧
  FxWatcher.walk_entries W cfg l' s1 = Done tt s1.
Proof.
  intros Hrun Hm1 Hsub.
  destruct (walk_entries_done W cfg l st s1 Hrun Hm1) as [Hpool Hall].
  repeat split; try done.
  apply walk_entries_tracked; [done|].
  apply Forall_forall. intros [q i] Hq. simpl.
  assert (Hq' : q ∈ l.*1).
  { apply Hsub. apply list_elem_of_fmap. by exists (q, i). }
  apply list_elem_of_fmap in Hq' as ([q' i'] & -> & Hin).
  rewrite Forall_forall in Hall. apply (Hall _ Hin).
Qed.

(** X13.  A walk does not get past a regular file the pattern does not
    match: the callback for the entry after it waits for the mutex for
    ever. *)
Theorem walk_blocks_after_filtered_file W cfg l st s1 path fi next rest :
  walk_entries W cfg l st = Done tt s1 →
  Mutex s1 = false →
  Pool s1 !! w_join W (cfg_dir cfg) path = None →
  fi_IsDir fi = false →
  w_match W (w_join W (cfg_dir cfg) path) = false →
  FxWatcher.walk_entries W cfg (l ++ (path, Some fi) :: next :: rest) st
  = Blocked (with_Mutex true s1).
Proof.
  intros Hrun Hm Hp Hd Hre. rewrite walk_entries_app. unfold bind.
  rewrite Hrun. destruct next as [q i]. cbn [walk_entries]. unfold bind.
  unfold walkFunc, reFilterName. by exec.
Qed.


(** * Invariants of the registry *)

Lemma registry_ok_empty n : registry_ok ∅ n.
Proof. intros p w Hp. by rewrite lookup_empty in Hp. Qed.

Lemma registry_ok_mono m n n' :
  registry_ok m n → (n ≤ n')%nat → registry_ok m n'.
Proof.
  intros H Hle p w Hp. destruct (H p w Hp) as (Hn & Hdir & Hfile).
  split; [done|]. split; [exact Hdir|].
  intros Hd. destruct (Hfile Hd) as (cin & cout & ? & ? & ? & ? & ?).
  exists cin, cout. repeat split; try done; lia.
Qed.

Lemma registry_ok_subseteq m m' n :
  registry_ok m n → m' ⊆ m → registry_ok m' n.
Proof.
  intros H Hsub p w Hp.
  destruct (H p w (lookup_weaken _ _ _ _ Hp Hsub)) as (Hn & Hdir & Hfile).
  split; [done|]. split; [exact Hdir|].
  intros Hd. destruct (Hfile Hd) as (cin & cout & ? & ? & ? & ? & Huniq).
  exists cin, cout. repeat split; try done.
  intros q v Hq. apply Huniq. by apply (lookup_weaken _ _ _ _ Hq).
Qed.

Lemma registry_ok_delete m n p :
  registry_ok m n → registry_ok (delete p m) n.
Proof.
  intros H. apply (registry_ok_subseteq m); [done|apply delete_subseteq].
Qed.

Lemma registry_ok_insert_dir m n p :
  registry_ok m n → registry_ok (<[p := dirEntry p]> m) n.
Proof.
  intros H q v Hq.
  destruct (decide (p = q)) as [->|Hne].
  - rewrite lookup_insert_eq in Hq. injection Hq as <-. done.
  - rewrite lookup_insert_ne in Hq by done.
    destruct (H q v Hq) as (Hn & Hdir & Hfile).
    split; [done|]. split; [exact Hdir|].
    intros Hd. destruct (Hfile Hd) as (cin & cout & ? & ? & ? & ? & Huniq).
    exists cin, cout. repeat split; try done.
    intros q' v' Hq' Hd'.
    destruct (decide (p = q')) as [->|Hne'].
    + rewrite lookup_insert_eq in Hq'. by injection Hq' as <-.
    + rewrite lookup_insert_ne in Hq' by done. by apply Huniq.
Qed.

Lemma registry_ok_insert_fresh m n p sc size created :
  registry_ok m n →
  registry_ok (<[p := fileEntry p sc n (S n) size created]> m) (S (S n)).
Proof.
  intros H q v Hq.
  destruct (decide (p = q)) as [->|Hne].
  - rewrite lookup_insert_eq in Hq. injection Hq as <-.
    repeat split; try done. intros _.
    exists n, (S n). repeat split; try done; try lia.
    intros q' v' Hq' Hd' Hout.
    destruct (decide (q = q')) as [|Hne']; [done|].
    rewrite lookup_insert_ne in Hq' by done.
    destruct (H q' v' Hq') as (_ & _ & Hfile).
    destruct (Hfile Hd') as (cin & cout & ? & ? & ? & ? & _).
    assert (cout = S n) by congruence. lia.
  - rewrite lookup_insert_ne in Hq by done.
    destruct (H q v Hq) as (Hn & Hdir & Hfile).
    split; [done|]. split; [exact Hdir|].
    intros Hd. destruct (Hfile Hd) as (cin & cout & ? & ? & ? & ? & Huniq).
    exists cin, cout. repeat split; try done; try lia.
    intros q' v' Hq' Hd' Hout.
    destruct (decide (p = q')) as [->|Hne'].
    + rewrite lookup_insert_eq in Hq'. injection Hq' as <-.
      simpl in Hout. assert (cout = S n) by congruence. lia.
    + rewrite lookup_insert_ne in Hq' by done. by apply (Huniq q' v').
Qed.

Lemma registry_ok_set_LastTry m n p e t :
  registry_ok m n → m !! p = Some e →
  registry_ok (<[p := set_LastTry t e]> m) n.
Proof.
  intros H He q v Hq.
  assert (Hlook : ∀ q' v', <[p := set_LastTry t e]> m !! q' = Some v' →
            ∃ u, m !! q' = Some u ∧ Name u = Name v' ∧
                 IsDir u = IsDir v' ∧ CtrlChanIn u = CtrlChanIn v' ∧
                 CtrlChanOut u = CtrlChanOut v').
  { intros q' v' Hq'. destruct (decide (p = q')) as [->|Hne].
    - rewrite lookup_insert_eq in Hq'. injection Hq' as <-. by exists e.
    - rewrite lookup_insert_ne in Hq' by done. by exists v'. }
  destruct (Hlook q v Hq) as (u & Hu & Hn1 & Hd1 & Hi1 & Ho1).
  destruct (H q u Hu) as (Hn & Hdir & Hfile).
  split; [congruence|]. split.
  - intros Hd. rewrite <- Hi1, <- Ho1. apply Hdir. congruence.
  - intros Hd.
    destruct Hfile as (cin & cout & ? & ? & ? & ? & Huniq); [congruence|].
    exists cin, cout. repeat split; try congruence.
    intros q' v' Hq' Hd' Hout.
    destruct (Hlook q' v' Hq') as (u' & Hu' & Hn2 & Hd2 & Hi2 & Ho2).
    apply (Huniq q' u'); congruence.
Qed.

(** *** Keeping an invariant along a program *)

Lemma keeps_bind I {A B} (m : M A) (k : A → M B) :
  keeps I m → (∀ a, keeps I (k a)) → keeps I (bind m k).
Proof.
  intros Hm Hk s Hs. unfold bind. specialize (Hm s Hs).
  destruct (m s) as [a s1|s1|s1|s1]; simpl in *; try done. by apply Hk.
Qed.

Lemma keeps_ret I {A} (a : A) : keeps I (ret a).
Proof. by intros s. Qed.

Lemma keeps_fatal I {A} : keeps I (@fatal A).
Proof. by intros s. Qed.

Lemma keeps_panic I {A} : keeps I (@panic A).
Proof. by intros s. Qed.

Lemma keeps_block I {A} : keeps I (@block A).
Proof. by intros s. Qed.

Lemma keeps_frame {A} (m : M A) : frames_pool m → keeps wf_registry m.
Proof.
  intros Hm s Hs. unfold wf_registry. destruct (Hm s) as [-> ->]. done.
Qed.

Ltac frame_prim :=
  intros s; repeat (progress exec_unfold);
  repeat first [case_match | progress simpl]; done.

Lemma frames_pool_lock : frames_pool lock.
Proof. frame_prim. Qed.
Lemma frames_pool_unlock : frames_pool unlock.
Proof. frame_prim. Qed.
Lemma frames_pool_lookup p : frames_pool (pool_lookup p).
Proof. frame_prim. Qed.
Lemma frames_pool_deref {A} (o : option A) : frames_pool (deref o).
Proof. frame_prim. Qed.
Lemma frames_pool_send c sig : frames_pool (chan_send c sig).
Proof. frame_prim. Qed.
Lemma frames_pool_recv c : frames_pool (chan_recv c).
Proof. frame_prim. Qed.
Lemma frames_pool_now W : frames_pool (time_Now W).
Proof. frame_prim. Qed.
Lemma frames_pool_stat W p : frames_pool (os_Stat W p).
Proof. frame_prim. Qed.
Lemma frames_pool_add W p : frames_pool (watcher_Add W p).
Proof. unfold watcher_Add. frame_prim. Qed.
Lemma frames_pool_remove p : frames_pool (watcher_Remove p).
Proof. frame_prim. Qed.
Lemma frames_pool_checkError cfg err : frames_pool (checkError cfg err).
Proof. frame_prim. Qed.
Lemma frames_pool_emit e : frames_pool (modify (emit e)).
Proof. frame_prim. Qed.

Create HintDb frames discriminated.
#[local] Hint Resolve frames_pool_lock frames_pool_unlock frames_pool_lookup
  frames_pool_deref frames_pool_send frames_pool_recv
  frames_pool_now frames_pool_stat frames_pool_add frames_pool_remove
  frames_pool_checkError frames_pool_emit : frames.

Lemma keeps_pool_delete p : keeps wf_registry (pool_delete p).
Proof. intros s Hs. by apply registry_ok_delete. Qed.

Lemma keeps_store_dir p : keeps wf_registry (pool_store p (dirEntry p)).
Proof. intros s Hs. by apply registry_ok_insert_dir. Qed.

(** Registering a file right after its session was created. *)
Lemma keeps_register W {B} p sc size created (k : Chan * Chan → unit → M B) :
  (∀ chans a, keeps wf_registry (k chans a)) →
  keeps wf_registry
    (bind (NewRawSeqStreamFromFile W p)
          (λ chans, bind (pool_store p (fileEntry p sc (fst chans) (snd chans)
                                                  size created))
                         (k chans))).
Proof.
  intros Hk s Hs. unfold bind, NewRawSeqStreamFromFile, pool_store, modify.
  apply Hk. by apply registry_ok_insert_fresh.
Qed.

(** Storing back the entry just read, with a new timestamp. *)
Lemma keeps_touch {B} p t (k : unit → M B) :
  (∀ a, keeps wf_registry (k a)) →
  keeps wf_registry
    (bind (pool_lookup p)
          (λ e, bind (deref e)
                     (λ e, bind (pool_store p (set_LastTry t e)) k))).
Proof.
  intros Hk s Hs. unfold bind, pool_lookup, deref, pool_store, modify, ret.
  destruct (Pool s !! p) as [e|] eqn:He; [|done].
  apply Hk. by apply registry_ok_set_LastTry.
Qed.

(** One step along a program, chosen by the shape of the program. *)
Ltac keeps_step :=
  lazymatch goal with
  | |- keeps _ (ret _) => apply keeps_ret
  | |- keeps _ fatal => apply keeps_fatal
  | |- keeps _ panic => apply keeps_panic
  | |- keeps _ block => apply keeps_block
  | |- keeps _ (pool_delete _) => apply keeps_pool_delete
  | |- keeps _ (pool_store _ (dirEntry _)) => apply keeps_store_dir
  | |- keeps _ (bind (NewRawSeqStreamFromFile _ _) _) =>
      apply keeps_register; intros ? ?
  | |- keeps _ (bind (pool_lookup _) _) =>
      first [ apply keeps_touch; intros ? | apply keeps_bind; [|intros ?] ]
  | |- keeps _ (bind _ _) => apply keeps_bind; [|intros ?]
  | |- keeps _ (match ?x with _ => _ end) => destruct x eqn:?
  | |- keeps _ _ => apply keeps_frame; solve [auto with frames]
  end.

Ltac keeps_auto := repeat keeps_step.

Lemma keeps_expect_Exited c : keeps wf_registry (expect_Exited c).
Proof. unfold expect_Exited. keeps_auto. Qed.

Ltac keeps_go :=
  repeat lazymatch goal with
         | |- keeps _ (expect_Exited _) => apply keeps_expect_Exited
         | |- _ => keeps_step
         end.

Lemma keeps_on_Remove ePath : keeps wf_registry (on_Remove ePath).
Proof. unfold on_Remove. keeps_go. Qed.

Lemma keeps_on_Rename ePath : keeps wf_registry (on_Rename ePath).
Proof. unfold on_Rename. keeps_go. Qed.

Lemma keeps_on_Write W cfg ePath : keeps wf_registry (on_Write W cfg ePath).
Proof. unfold on_Write. keeps_go. Qed.

(** The file branch of the walk callback, from the creation of the session
    on. *)
Lemma keeps_walk_file W cfg path created :
  keeps wf_registry
    (let* chans := NewRawSeqStreamFromFile W path in
     let* err := watcher_Add W path in
     checkError cfg err >>>
     let* fi := os_Stat W path in
     checkError cfg (stat_err fi) >>>
     let* fi := deref fi in
     pool_store path (fileEntry path (cfg_seqChan cfg) (fst chans)
                                (snd chans) (fi_Size fi) created) >>>
     chan_send (Some (fst chans)) StreamTry >>>
     unlock).
Proof.
  intros s Hs. unfold NewRawSeqStreamFromFile, watcher_Add.
  repeat (progress exec_unfold). unfold wf_registry in *.
  repeat case_match; simplify_eq/=;
    eauto using registry_ok_mono, registry_ok_insert_fresh.
Qed.

Lemma keeps_walkFunc W cfg p info : keeps wf_registry (walkFunc W cfg p info).
Proof.
  unfold walkFunc. cbv zeta.
  repeat lazymatch goal with
         | |- keeps _ (bind (NewRawSeqStreamFromFile _ _) _) =>
             apply keeps_walk_file
         | |- _ => keeps_step
         end.
Qed.

Lemma keeps_walk_entries W cfg l : keeps wf_registry (walk_entries W cfg l).
Proof.
  induction l as [|[p info] l IH]; [apply keeps_ret|].
  cbn [walk_entries]. apply keeps_bind; [apply keeps_walkFunc|done].
Qed.

Lemma keeps_cwalk_Walk W cfg : keeps wf_registry (cwalk_Walk W cfg).
Proof.
  intros s Hs. unfold cwalk_Walk.
  apply (keeps_bind wf_registry (walk_entries W cfg (w_walk W (Tick s)))
           (λ _, ret (w_walk_fails W (Tick s)))); [| |done].
  - apply keeps_walk_entries.
  - intros _. apply keeps_ret.
Qed.

Lemma keeps_on_Create W cfg ePath : keeps wf_registry (on_Create W cfg ePath).
Proof.
  unfold on_Create. cbv zeta.
  repeat lazymatch goal with
         | |- keeps _ (cwalk_Walk _ _) => apply keeps_cwalk_Walk
         | |- _ => keeps_step
         end.
Qed.

Lemma keeps_handle_event W cfg event :
  keeps wf_registry (handle_event W cfg event).
Proof.
  unfold handle_event. cbv zeta.
  repeat lazymatch goal with
         | |- keeps _ (on_Remove _) => apply keeps_on_Remove
         | |- keeps _ (on_Rename _) => apply keeps_on_Rename
         | |- keeps _ (on_Create _ _ _) => apply keeps_on_Create
         | |- keeps _ (on_Write _ _ _) => apply keeps_on_Write
         | |- _ => keeps_step
         end.
Qed.

Lemma keeps_handle_events W cfg events :
  keeps wf_registry (handle_events W cfg events).
Proof.
  induction events as [|ev events IH]; [apply keeps_ret|].
  cbn [handle_events]. apply keeps_bind; [apply keeps_handle_event|done].
Qed.

Lemma keeps_startup W cfg : keeps wf_registry (startup W cfg).
Proof.
  unfold startup.
  repeat lazymatch goal with
         | |- keeps _ (cwalk_Walk _ _) => apply keeps_cwalk_Walk
         | |- keeps _ (pool_store _ (dirEntry _)) => apply keeps_store_dir
         | |- _ => keeps_step
         end.
Qed.

Lemma frames_pool_range_acks c acks s :
  Pool (final_state (range_acks c acks s)) = Pool s ∧
  NextChan (final_state (range_acks c acks s)) = NextChan s.
Proof.
  revert s. induction acks as [|j acks IH]; intros s; [done|].
  cbn [range_acks]. repeat case_match; try done.
  destruct (IH (emit (EvRecv c j) (with_Inbox <[c:=acks]> s))) as [-> ->].
  done.
Qed.

Lemma keeps_range c : keeps wf_registry (range_CtrlChanOut c).
Proof.
  apply keeps_frame. intros s. unfold range_CtrlChanOut.
  destruct c; [apply frames_pool_range_acks|done].
Qed.

Lemma keeps_sweep order : keeps wf_registry (sweep order).
Proof.
  induction order as [|p order IH]; [apply keeps_ret|].
  cbn [sweep]. unfold sweep_entry.
  repeat lazymatch goal with
         | |- keeps _ (range_CtrlChanOut _) => apply keeps_range
         | |- keeps _ (sweep _) => exact IH
         | |- _ => keeps_step
         end.
Qed.

Lemma keeps_on_shutdown order : keeps wf_registry (on_shutdown order).
Proof.
  unfold on_shutdown.
  repeat lazymatch goal with
         | |- keeps _ (sweep _) => apply keeps_sweep
         | |- _ => keeps_step
         end.
Qed.

Lemma keeps_drain_CHAN ePath w picks :
  keeps wf_registry (drain_CHAN ePath w picks).
Proof.
  induction picks as [|pick picks IH]; [apply keeps_ret|].
  destruct pick as [[seq|]| |]; cbn [drain_CHAN].
  - destruct (SeqChan w); [|done]. keeps_auto. done.
  - destruct (SeqChan w); [apply keeps_ret|done].
  - destruct (CtrlChanOut w) as [c|]; [|done]. intros s Hs.
    destruct (Inbox s !! c) as [[|a rest]|]; try by apply IH.
    revert s Hs. fold (keeps wf_registry
      (let* e := chan_recv (Some c) in
       if decide (e = StreamEOF) then ret tt
       else if decide (e = StreamExited) then pool_delete ePath
       else fatal)). keeps_auto.
  - destruct (CtrlChanOut w); [apply keeps_ret|done].
Qed.

Lemma keeps_refresh W ePath : keeps wf_registry (refresh_LastSize W ePath).
Proof.
  intros s Hs. rewrite refresh_LastSize_run.
  by destruct (w_stat W (Tick s) ePath).
Qed.

Lemma keeps_drain_pass W order : keeps wf_registry (drain_pass W order).
Proof.
  induction order as [|[ePath picks] order IH]; [apply keeps_ret|].
  cbn [drain_pass]. unfold drain_entry.
  repeat lazymatch goal with
         | |- keeps _ (drain_CHAN _ _ _) => apply keeps_drain_CHAN
         | |- keeps _ (refresh_LastSize _ _) => apply keeps_refresh
         | |- keeps _ (drain_pass _ _) => exact IH
         | |- _ => keeps_step
         end.
Qed.

(** X14.  Good order of the registry is an invariant of the watcher: the
    start of the watcher, any run of notifications, the shutdown sweep and a
    pass of the drain loop each end, however they end, in a state whose
    registry is in good order again. *)
Theorem watcher_keeps_registry_in_order W cfg events order picks st :
  wf_registry st →
  wf_registry (final_state (FxWatcher.startup W cfg st)) ∧
  wf_registry (final_state (FxWatcher.handle_events W cfg events st)) ∧
  wf_registry (final_state (FxWatcher.on_shutdown order st)) ∧
  wf_registry (final_state (FxWatcher.drain_pass W picks st)).
Proof.
  intros Hs. split; [|split; [|split]].
  - by apply keeps_startup.
  - by apply keeps_handle_events.
  - by apply keeps_on_shutdown.
  - by apply keeps_drain_pass.
Qed.

(** A registry in good order meets what the shutdown sweep asks of it:
    every file entry holds both channels, and along any visiting order
    without repetition the acknowledgment channels are pairwise distinct. *)
Lemma registry_in_order_is_sweepable st order :
  wf_registry st →
  NoDup order →
  map_Forall (λ _ w, has_session w) (Pool st) ∧
  NoDup (omap (session_out st) order).
Proof.
  intros Hs Hnd. split.
  - intros p w Hp Hd. destruct (Hs p w Hp) as (_ & _ & Hfile).
    destruct (Hfile Hd) as (cin & cout & -> & -> & _). by split; eexists.
  - induction Hnd as [|p order Hp Hnd IH]; [constructor|]. csimpl.
    destruct (session_out st p) as [c|] eqn:Hc; [|done].
    constructor; [|done]. intros Hin.
    apply list_elem_of_omap in Hin as (q & Hq & Hqc).
    unfold session_out in Hc, Hqc.
    destruct (Pool st !! p) as [w|] eqn:Hw; [|done].
    destruct (Pool st !! q) as [v|] eqn:Hv; [|done].
    destruct (IsDir w) eqn:Hdw; [done|].
    destruct (IsDir v) eqn:Hdv; [done|].
    destruct (Hs p w Hw) as (_ & _ & Hfile).
    destruct (Hfile Hdw) as (cin & cout & _ & Hout & _ & _ & Huniq).
    assert (q = p) by (apply (Huniq q v); congruence). by subst.
Qed.

(** X15.  A watcher that starts on an empty registry and then handles any
    run of notifications ends, however it ends, with a registry the
    shutdown sweep can work on: every file entry holds both channels of its
    session, and along any visiting order without repetition the
    acknowledgment channels of the file entries are pairwise distinct. *)
Theorem started_watcher_is_sweepable W cfg events order st :
  Pool st = ∅ →
  NoDup order →
  let s' := final_state ((FxWatcher.startup W cfg >>>
                          FxWatcher.handle_events W cfg events) st) in
  map_Forall (λ _ w, has_session w) (Pool s') ∧
  NoDup (omap (session_out s') order).
Proof.
  intros Hempty Hnd s'. apply registry_in_order_is_sweepable; [|done].
  apply keeps_bind; [apply keeps_startup|intros _; apply keeps_handle_events|].
  unfold wf_registry. rewrite Hempty. apply registry_ok_empty.
Qed.

(** * The mutex along the handlers *)

Lemma ends_bind b0 b1 b2 {A B} (m : M A) (k : A → M B) :
  ends_with b0 b1 m → (∀ a, ends_with b1 b2 (k a)) →
  ends_with b0 b2 (bind m k).
Proof.
  intros Hm Hk s b s' Hs. unfold bind.
  destruct (m s) as [a s1|s1|s1|s1] eqn:Hrun; try done.
  apply (Hk a). by apply (Hm s a).
Qed.

Lemma ends_ret b {A} (a : A) : ends_with b b (ret a).
Proof. intros s a' s' Hs [= _ <-]. done. Qed.

Lemma ends_fatal b0 b1 {A} : ends_with b0 b1 (@fatal A).
Proof. by intros s a s' _. Qed.

Lemma ends_panic b0 b1 {A} : ends_with b0 b1 (@panic A).
Proof. by intros s a s' _. Qed.

Lemma ends_block b0 b1 {A} : ends_with b0 b1 (@block A).
Proof. by intros s a s' _. Qed.

Lemma ends_lock b : ends_with b true lock.
Proof. intros s a s' _. unfold lock. destruct (Mutex s); [done|]. by intros [= _ <-]. Qed.

Lemma ends_unlock b : ends_with b false unlock.
Proof. intros s a s' _. unfold unlock. destruct (Mutex s); [|done]. by intros [= _ <-]. Qed.

Lemma ends_frame b {A} (m : M A) : frames_mutex m → ends_with b b m.
Proof. intros Hm s a s' Hs Hrun. specialize (Hm s). rewrite Hrun in Hm. simpl in Hm. congruence. Qed.

Lemma frames_mutex_lookup p : frames_mutex (pool_lookup p).
Proof. frame_prim. Qed.
Lemma frames_mutex_deref {A} (o : option A) : frames_mutex (deref o).
Proof. frame_prim. Qed.
Lemma frames_mutex_send c sig : frames_mutex (chan_send c sig).
Proof. frame_prim. Qed.
Lemma frames_mutex_recv c : frames_mutex (chan_recv c).
Proof. frame_prim. Qed.
Lemma frames_mutex_now W : frames_mutex (time_Now W).
Proof. frame_prim. Qed.
Lemma frames_mutex_stat W p : frames_mutex (os_Stat W p).
Proof. frame_prim. Qed.
Lemma frames_mutex_remove p : frames_mutex (watcher_Remove p).
Proof. frame_prim. Qed.
Lemma frames_mutex_checkError cfg err : frames_mutex (checkError cfg err).
Proof. frame_prim. Qed.
Lemma frames_mutex_delete p : frames_mutex (pool_delete p).
Proof. frame_prim. Qed.
Lemma frames_mutex_store p w : frames_mutex (pool_store p w).
Proof. frame_prim. Qed.
Lemma frames_mutex_emit e : frames_mutex (modify (emit e)).
Proof. frame_prim. Qed.

#[local] Hint Resolve frames_mutex_lookup frames_mutex_deref
  frames_mutex_send frames_mutex_recv frames_mutex_now frames_mutex_stat
  frames_mutex_remove frames_mutex_checkError frames_mutex_delete
  frames_mutex_store frames_mutex_emit : frames.

Ltac ends_step :=
  lazymatch goal with
  | |- ends_with _ _ (ret _) => apply ends_ret
  | |- ends_with _ _ fatal => apply ends_fatal
  | |- ends_with _ _ panic => apply ends_panic
  | |- ends_with _ _ block => apply ends_block
  | |- ends_with _ _ lock => apply ends_lock
  | |- ends_with _ _ unlock => apply ends_unlock
  | |- ends_with _ _ (bind _ _) => eapply ends_bind; [|intros ?]
  | |- ends_with _ _ (match ?x with _ => _ end) => destruct x eqn:?
  | |- ends_with _ _ _ => apply ends_frame; solve [auto with frames]
  end.

Lemma ends_expect_Exited b c : ends_with b b (expect_Exited c).
Proof. unfold expect_Exited. repeat ends_step. Qed.

Ltac ends_go :=
  repeat lazymatch goal with
         | |- ends_with _ _ (expect_Exited _) => apply ends_expect_Exited
         | |- _ => ends_step
         end.

Lemma ends_on_Remove b ePath : ends_with b false (on_Remove ePath).
Proof. unfold on_Remove. ends_go. Qed.

Lemma ends_on_Rename b ePath : ends_with b b (on_Rename ePath).
Proof. unfold on_Rename. ends_go. Qed.

Lemma ends_on_Write W cfg b ePath : ends_with b false (on_Write W cfg ePath).
Proof. unfold on_Write. ends_go. Qed.

Lemma ends_range b c : ends_with b b (range_CtrlChanOut c).
Proof.
  apply ends_frame. intros s. unfold range_CtrlChanOut.
  destruct c as [c|]; [|done].
  generalize (default [] (Inbox s !! c)). intros acks. revert s.
  induction acks as [|j acks IH]; intros s; [done|].
  cbn [range_acks]. repeat case_match; try done.
  by rewrite IH.
Qed.

Lemma ends_sweep order : ends_with true true (sweep order).
Proof.
  induction order as [|p order IH]; [apply ends_ret|].
  cbn [sweep]. unfold sweep_entry.
  repeat lazymatch goal with
         | |- ends_with _ _ (range_CtrlChanOut _) => apply ends_range
         | |- ends_with _ _ (sweep _) => exact IH
         | |- _ => ends_step
         end.
Qed.

Lemma ends_drain_CHAN b ePath w picks :
  ends_with b b (drain_CHAN ePath w picks).
Proof.
  induction picks as [|pick picks IH]; [apply ends_ret|].
  destruct pick as [[seq|]| |]; cbn [drain_CHAN].
  - destruct (SeqChan w); [|done]. repeat ends_step. done.
  - destruct (SeqChan w); [apply ends_ret|done].
  - destruct (CtrlChanOut w) as [c|]; [|done]. intros s a s' Hs.
    destruct (Inbox s !! c) as [[|e rest]|]; try by apply IH.
    revert s a s' Hs. fold (ends_with b b
      (let* e := chan_recv (Some c) in
       if decide (e = StreamEOF) then ret tt
       else if decide (e = StreamExited) then pool_delete ePath
       else fatal)). repeat ends_step.
  - destruct (CtrlChanOut w); [apply ends_ret|done].
Qed.

Lemma ends_refresh W b ePath : ends_with b b (refresh_LastSize W ePath).
Proof.
  intros s a s' Hs. rewrite refresh_LastSize_run.
  destruct (w_stat W (Tick s) ePath); [|done]. by intros [= _ <-].
Qed.

Lemma ends_drain_pass W order : ends_with false false (drain_pass W order).
Proof.
  induction order as [|[ePath picks] order IH]; [apply ends_ret|].
  cbn [drain_pass]. unfold drain_entry.
  repeat lazymatch goal with
         | |- ends_with _ _ (drain_CHAN _ _ _) => apply ends_drain_CHAN
         | |- ends_with _ _ (refresh_LastSize _ _) => apply ends_refresh
         | |- ends_with _ _ (drain_pass _ _) => exact IH
         | |- _ => ends_step
         end.
Qed.

(** X16.  Whatever is handled to its end leaves the mutex released, when it
    was free to begin with: a notification without the create bit, the
    shutdown sweep, and a pass of the drain loop. *)
Theorem handlers_release_mutex W cfg event order picks st :
  Mutex st = false →
  (has_op (ev_Op event) fsCreate = false →
   is_done (FxWatcher.handle_event W cfg event st) = true →
   Mutex (final_state (FxWatcher.handle_event W cfg event st)) = false) ∧
  (is_done (FxWatcher.on_shutdown order st) = true →
   Mutex (final_state (FxWatcher.on_shutdown order st)) = false) ∧
  (is_done (FxWatcher.drain_pass W picks st) = true →
   Mutex (final_state (FxWatcher.drain_pass W picks st)) = false).
Proof.
  intros Hm. split; [|split].
  - intros Hc.
    assert (H : ends_with false false (handle_event W cfg event)).
    { unfold handle_event. cbv zeta. rewrite Hc.
      repeat lazymatch goal with
             | |- ends_with _ _ (on_Remove _) => apply ends_on_Remove
             | |- ends_with _ _ (on_Rename _) => apply ends_on_Rename
             | |- ends_with _ _ (on_Write _ _ _) => apply ends_on_Write
             | |- _ => ends_step
             end. }
    destruct (handle_event W cfg event st) as [a s'| | |] eqn:Hrun; try done.
    intros _. by apply (H st a s').
  - assert (H : ends_with false false (on_shutdown order)).
    { unfold on_shutdown.
      repeat lazymatch goal with
             | |- ends_with _ _ (sweep _) => apply ends_sweep
             | |- _ => ends_step
             end. }
    destruct (on_shutdown order st) as [a s'| | |] eqn:Hrun; try done.
    intros _. by apply (H st a s').
  - pose proof (ends_drain_pass W picks) as H.
    destruct (drain_pass W picks st) as [a s'| | |] eqn:Hrun; try done.
    intros _. by apply (H st a s').
Qed.

(** * Further properties of the drain loop *)

(** X17.  The drain loop on a file entry whose session has an
    acknowledgment waiting, when the [select] picks it: [EOF] is taken and
    the entry stays, [Exited] is taken and the entry is deleted without any
    [Quit] having been sent, anything else is fatal.  In each case the inner
    loop stops there, whatever else is ready, and with [os.Stat] succeeding
    the mutex is released. *)
Theorem drain_takes_one_acknowledgment W st ePath w cout ack rest picks fi :
  Mutex st = false →
  CtrlChanOut w = Some cout →
  Inbox st !! cout = Some (ack :: rest) →
  w_stat W (Tick st) ePath = Some fi →
  let r := FxWatcher.drain_entry W ePath w (PickCtrl :: picks) st in
  let s' := final_state r in
  Inbox s' = <[cout := rest]> (Inbox st) ∧
  if decide (ack = StreamEOF) then
    r = Done tt s' ∧ Mutex s' = false ∧ Pool s' = Pool st ∧
    Trace s' = Trace st ++ [EvRecv cout StreamEOF]
  else if decide (ack = StreamExited) then
    r = Done tt s' ∧ Mutex s' = false ∧ Pool s' = delete ePath (Pool st) ∧
    Trace s' = Trace st ++ [EvRecv cout StreamExited; EvDelete ePath]
  else
    r = Fatal s' ∧ Pool s' = Pool st ∧
    Trace s' = Trace st ++ [EvRecv cout ack].
Proof.
  intros Hm Hout Hin Hs. unfold drain_entry. cbn [drain_CHAN].
  rewrite Hout. unfold refresh_LastSize. exec.
  destruct (decide (ack = StreamEOF)) as [->|Hne]; exec.
  - done.
  - destruct (decide (ack = StreamExited)) as [->|Hne']; exec.
    + rewrite <- app_assoc. done.
    + done.
Qed.



(** * Further properties of the coordinator *)

Lemma usable_roots_nil dirs :
  usable_roots dirs = [] ↔ Forall (λ d, d = "-") dirs.
Proof.
  induction dirs as [|d dirs IH]; simpl; [by split|].
  destruct (decide (d ≠ "-")) as [Hd|Hd].
  - split; [done|]. by intros [? _]%Forall_cons.
  - apply dec_stable in Hd. rewrite IH. split.
    + intros H. by constructor.
    + by intros [_ ?]%Forall_cons.
Qed.

Lemma usable_roots_id dirs : "-" ∉ dirs → usable_roots dirs = dirs.
Proof.
  induction dirs as [|d dirs IH]; intros Hin; [done|]. simpl.
  apply not_elem_of_cons in Hin as [Hd Hin].
  rewrite decide_True by done. by rewrite IH.
Qed.

(** X19.  The run is refused, with exit status 1, exactly when no root is
    given or every root given is the placeholder [-]; otherwise it is
    launched. *)
Theorem scat_Run_refuses_iff_no_usable_root dirs :
  scat_Run dirs
  = if bool_decide (Forall (λ d, d = "-") dirs) then Exit 1
    else Launched (spawn_watchers dirs).
Proof.
  unfold scat_Run. pose proof (usable_roots_nil dirs) as Hnil.
  destruct (usable_roots dirs) as [|d l]; simpl.
  - rewrite bool_decide_eq_true_2; [done|]. by apply Hnil.
  - rewrite bool_decide_eq_false_2; [done|]. intros H. by apply Hnil in H.
Qed.

(** X20.  Without the placeholder among the roots the launch is what the
    filter promises: one watcher per usable root, the watcher of index [i]
    on the [i]-th root. *)
Theorem launch_without_placeholder dirs :
  "-" ∉ dirs →
  dirs ≠ [] →
  ∃ ws, scat_Run dirs = Launched ws ∧
        sp_dir <$> ws = usable_roots dirs ∧
        ∀ i d, dirs !! i = Some d → ws !! i = Some (mkSpawned i d).
Proof.
  intros Hin Hne. exists (spawn_watchers dirs).
  rewrite usable_roots_id by done. unfold scat_Run.
  rewrite usable_roots_id by done.
  destruct dirs as [|d dirs]; [done|]. split; [done|].
  split; [apply spawn_watchers_dirs|].
  intros i d' Hi. unfold spawn_watchers. rewrite list_lookup_imap, Hi. done.
Qed.

Lemma PULL_retired j picks : ∀ c,
  allCtrlChans c !! j ≠ Some true → is_Some (PULL j picks c).
Proof.
  induction picks as [|[seq|fb] picks IH]; intros c Hc; simpl; [done| |].
  - by apply IH.
  - destruct (allCtrlChans c !! j) as [[]|] eqn:Hj; simpl; try done;
      apply IH; by rewrite Hj.
Qed.

(** X21.  The [PULL] loop on root [j] is fatal exactly when the control
    channel of that root is still there and the first value taken from it
    is not the sentinel -9; after the sentinel the channel is nil and
    nothing taken later can be fatal. *)
Theorem PULL_fatal_iff j picks : ∀ c,
  PULL j picks c = None ↔
  allCtrlChans c !! j = Some true ∧
  ∃ fb, first_ctrl picks = Some fb ∧ fb ≠ watchDone.
Proof.
  induction picks as [|[seq|fb] picks IH]; intros c; simpl.
  - split; [done|]. by intros (_ & fb & ? & _).
  - rewrite IH. done.
  - unfold first_ctrl. csimpl.
    destruct (allCtrlChans c !! j) as [[]|] eqn:Hj; simpl.
    + destruct (decide (fb ≠ watchDone)) as [Hfb|Hfb].
      * split; [|done]. intros _. split; [done|]. by exists fb.
      * apply dec_stable in Hfb. subst fb. split.
        -- intros Hnone. exfalso.
           destruct (PULL_retired j picks (retire j c)) as [c' Hc'];
             [|congruence].
           simpl. rewrite list_lookup_insert_eq; [done|].
           by apply lookup_lt_Some in Hj.
        -- by intros (_ & fb & [= <-] & ?).
    + split; [|by intros [? _]]. intros Hnone. exfalso.
      destruct (PULL_retired j picks c) as [c' Hc']; [|congruence].
      by rewrite Hj.
    + split; [|by intros [? _]]. intros Hnone. exfalso.
      destruct (PULL_retired j picks c) as [c' Hc']; [|congruence].
      by rewrite Hj.
Qed.

(** What [PULL] does to the channels of the coordinator: nothing, or it
    retires root [j]. *)
Lemma PULL_chans j picks : ∀ c c',
  PULL j picks c = Some c' →
  (allSeqChans c' = allSeqChans c ∧ allCtrlChans c' = allCtrlChans c) ∨
  (allSeqChans c' = <[j := false]> (allSeqChans c) ∧
   allCtrlChans c' = <[j := false]> (allCtrlChans c)).
Proof.
  induction picks as [|[seq|fb] picks IH]; intros c c' Hrun; simpl in Hrun.
  - injection Hrun as <-. by left.
  - destruct (IH _ _ Hrun) as [H|H]; [by left|by right].
  - destruct (default false (allCtrlChans c !! j)).
    + destruct (decide (fb ≠ watchDone)); [done|].
      destruct (IH _ _ Hrun) as [[-> ->]|[-> ->]]; right; simpl; [done|].
      by rewrite !list_insert_insert_eq.
    + by apply IH.
Qed.

Lemma count_live_cons b live :
  count_live (b :: live)
  = ((if b then 1 else 0) + count_live live)%nat.
Proof.
  unfold count_live. destruct b.
  - by rewrite filter_cons_True.
  - by rewrite filter_cons_False.
Qed.

Lemma poll_from_spec picks : ∀ todo j active c n c',
  poll_from todo j picks active c = Some (n, c') →
  (j + todo)%nat = length (allSeqChans c) →
  n = (active + count_live (drop j (allSeqChans c)))%nat ∧
  written c' = written c ++
    ((λ s, (Stdout, s)) <$> polled_from j (drop j (allSeqChans c)) picks) ∧
  length (allSeqChans c') = length (allSeqChans c) ∧
  ∀ i, allSeqChans c' !! i = Some true → allSeqChans c !! i = Some true.
Proof.
  induction todo as [|todo IH]; intros j active c n c' Hrun Hlen.
  - injection Hrun as <- <-. rewrite drop_ge by lia.
    cbn [polled_from]. rewrite fmap_nil, app_nil_r.
    repeat split; try done; unfold count_live; simpl; lia.
  - cbn [poll_from] in Hrun.
    destruct (allSeqChans c !! j) as [b|] eqn:Hj;
      [|apply lookup_ge_None in Hj; lia].
    rewrite (drop_S _ _ _ Hj). simpl in Hrun.
    assert (Hdrop : ∀ l, drop (S j) (<[j := false]> l) = drop (S j) l).
    { intros l. apply drop_insert_lt. lia. }
    destruct b.
    + destruct (PULL j (default [] (picks !! j)) c) as [c1|] eqn:Hpull;
        [|done].
      pose proof (PULL_written _ _ _ _ Hpull) as Hw.
      assert (Hch : drop (S j) (allSeqChans c1) = drop (S j) (allSeqChans c)
                    ∧ length (allSeqChans c1) = length (allSeqChans c)
                    ∧ ∀ i, allSeqChans c1 !! i = Some true →
                           allSeqChans c !! i = Some true).
      { destruct (PULL_chans _ _ _ _ Hpull) as [[-> _]|[-> _]]; [done|].
        rewrite Hdrop, length_insert. repeat split; try done.
        intros i Hi. destruct (decide (i = j)) as [->|Hne].
        - rewrite list_lookup_insert_eq in Hi; [done|].
          by apply lookup_lt_Some in Hj.
        - by rewrite list_lookup_insert_ne in Hi. }
      destruct Hch as (Hd & Hl & Hmono).
      destruct (IH (S j) (S active) c1 n c' Hrun) as (Hn & Hw' & Hl' & Hm');
        [lia|].
      rewrite Hd in Hn, Hw'. rewrite count_live_cons. cbn [polled_from].
      repeat split.
      * lia.
      * rewrite Hw', Hw, fmap_app, app_assoc. done.
      * congruence.
      * intros i Hi. by apply Hmono, Hm'.
    + destruct (IH (S j) active c n c' Hrun) as (Hn & Hw' & Hl' & Hm');
        [lia|].
      rewrite count_live_cons. cbn [polled_from].
      repeat split; try done.
Qed.

(** X22.  One polling turn that is not fatal counts exactly the roots whose
    queue was there at the start, prints what it takes root after root in
    index order and, within a root, in arrival order, and brings no channel
    back. *)
Theorem poll_roots_counts_and_prints picks c active c' :
  poll_roots picks c = Some (active, c') →
  active = count_live (allSeqChans c) ∧
  written c' = written c ++
    ((λ s, (Stdout, s)) <$> polled_from 0 (allSeqChans c) picks) ∧
  length (allSeqChans c') = length (allSeqChans c) ∧
  ∀ i, allSeqChans c' !! i = Some true → allSeqChans c !! i = Some true.
Proof.
  intros Hrun. unfold poll_roots in Hrun.
  apply poll_from_spec in Hrun; [|lia]. by rewrite drop_0 in Hrun.
Qed.

Lemma poll_from_idle picks : ∀ todo j active c,
  Forall (λ b, b = false) (allSeqChans c) →
  poll_from todo j picks active c = Some (active, c).
Proof.
  induction todo as [|todo IH]; intros j active c Hall; [done|].
  cbn [poll_from].
  destruct (allSeqChans c !! j) as [b|] eqn:Hj; simpl; [|by apply IH].
  rewrite Forall_forall in Hall.
  rewrite (Hall b) by (by apply list_elem_of_lookup_2 in Hj).
  apply IH. by apply Forall_forall.
Qed.

Lemma count_live_0 live : count_live live = O → Forall (λ b, b = false) live.
Proof.
  induction live as [|b live IH]; [done|].
  rewrite count_live_cons. destruct b; [done|]. intros H. constructor; auto.
Qed.

(** X23.  The polling branch returns only from a turn that found every
    queue already gone; that turn has printed nothing and changed nothing,
    and the loop of lines 164-170 addresses no watcher. *)
Theorem default_turn_returns_only_when_idle picks c addressed c' :
  default_turn picks c = Returned addressed c' →
  Forall (λ b, b = false) (allSeqChans c) ∧ c' = c ∧ addressed = [].
Proof.
  unfold default_turn. intros Hrun.
  destruct (poll_roots picks c) as [[active c1]|] eqn:Hpoll; [|done].
  destruct (active =? 0)%nat eqn:Hz; [|done].
  apply Nat.eqb_eq in Hz. subst active.
  injection Hrun as <- <-.
  unfold poll_roots in Hpoll.
  destruct (poll_from_spec _ _ _ _ _ _ _ Hpoll) as (Hn & _); [lia|].
  rewrite drop_0 in Hn. symmetry in Hn. apply count_live_0 in Hn.
  rewrite (poll_from_idle picks _ _ _ c Hn) in Hpoll.
  injection Hpoll as <-. repeat split; try done.
  unfold stragglers. apply elem_of_nil_inv. intros i.
  rewrite list_elem_of_filter. intros [[_ Hi] _].
  destruct (allSeqChans c !! i) as [b|] eqn:Hb; [|done]. simpl in Hi.
  subst b. apply list_elem_of_lookup_2 in Hb.
  rewrite Forall_forall in Hn. by specialize (Hn _ Hb).
Qed.

(** X25.  The broadcast gets to [return] exactly when the sweep of every
    watcher it addresses returns; a root whose control channel is gone is
    passed over, and its watcher is left as it was. *)
Theorem broadcast_returns_iff roots :
  (is_Some (broadcast roots) ↔
   Forall (λ r, r_live r = true →
                is_done (FxWatcher.on_shutdown (r_order r) (r_watcher r))
                = true) roots) ∧
  (∀ states, broadcast roots = Some states →
     length states = length roots ∧
     Forall2 (λ r s, r_live r = false → s = r_watcher r) roots states).
Proof.
  induction roots as [|r roots [IH1 IH2]]; simpl.
  - split; [by split|]. intros states [= <-]. by split.
  - destruct (r_live r) eqn:Hlive.
    + destruct (on_shutdown (r_order r) (r_watcher r)) as [[] s'| | |] eqn:Hrun.
      * split.
        -- rewrite fmap_is_Some, IH1. split.
           ++ intros H. constructor; [|done]. by rewrite Hrun.
           ++ by intros [_ ?]%Forall_cons.
        -- intros states Hst.
           destruct (broadcast roots) as [l|]; [|done].
           injection Hst as <-. destruct (IH2 l eq_refl) as [Hl Hall].
           split; [simpl; lia|]. constructor; [|done]. by rewrite Hlive.
      * split; [|done]. split; [by intros [? ?]|].
        intros [H _]%Forall_cons. specialize (H Hlive).
        by rewrite Hrun in H.
      * split; [|done]. split; [by intros [? ?]|].
        intros [H _]%Forall_cons. specialize (H Hlive).
        by rewrite Hrun in H.
      * split; [|done]. split; [by intros [? ?]|].
        intros [H _]%Forall_cons. specialize (H Hlive).
        by rewrite Hrun in H.
    + split.
      * rewrite fmap_is_Some, IH1. split.
        -- intros H. constructor; [|done]. by rewrite Hlive.
        -- by intros [_ ?]%Forall_cons.
      * intros states Hst.
        destruct (broadcast roots) as [l|]; [|done].
        injection Hst as <-. destruct (IH2 l eq_refl) as [Hl Hall].
        split; [simpl; lia|]. by constructor.
Qed.

(** * The further statements at the sample root *)



(** The tracked file is renamed while the mutex is held. *)
Lemma rename_tracked_file_witness :
  let st := with_Mutex true (Sample.state [StreamExited]) in
  let r := handle_event (Sample.world None 0) (Sample.config ErrExits)
             (mkFsEvent Sample.file fsRename) st in
  let s' := final_state r in
  Mutex s' = true ∧ r = Done tt s' ∧
  Trace s' = Trace st ++ [EvSend 1 StreamQuit; EvRecv 2 StreamExited;
                          EvDelete Sample.file] ∧
  Pool s' = delete Sample.file (Pool st).
Proof.
  exact (rename_tracked_file (Sample.world None 0) (Sample.config ErrExits)
           (with_Mutex true (Sample.state [StreamExited])) Sample.file
           fsRename Sample.entry 1%nat 2%nat eq_refl eq_refl eq_refl eq_refl).
Defined.

(** The root directory is renamed. *)
Lemma rename_tracked_directory_blocks_witness :
  handle_event (Sample.world None 0) (Sample.config ErrExits)
               (mkFsEvent Sample.root fsRename) (Sample.state [])
  = Blocked (Sample.state []).
Proof.
  exact (rename_tracked_directory_blocks (Sample.world None 0)
           (Sample.config ErrExits) (Sample.state []) Sample.root fsRename
           (dirEntry Sample.root) eq_refl eq_refl eq_refl eq_refl).
Defined.

(** A notification with the create and write bits for the tracked file. *)
Lemma create_tracked_is_dropped_witness :
  handle_event (Sample.world (Some 30720) 600000000) (Sample.config ErrExits)
               (mkFsEvent Sample.file (Z.lor fsCreate fsWrite))
               (Sample.state [])
  = Done tt (Sample.state []).
Proof.
  exact (create_tracked_is_dropped (Sample.world (Some 30720) 600000000)
           (Sample.config ErrExits) (Sample.state []) Sample.file
           (Z.lor fsCreate fsWrite) Sample.entry
           eq_refl eq_refl eq_refl eq_refl).
Defined.







(** The walk finds the file of the scenario, then finds it again. *)
Lemma walk_registers_then_repeats_witness :
  let l := [("a.fastq", Some (mkFileInfo 0 false))] in
  let s1 := final_state (walk_entries Sample.scenario
                           (Sample.config ErrExits) l Sample.fresh) in
  Pool Sample.fresh ⊆ Pool s1 ∧
  Forall (λ x, is_Some (Pool s1 !! w_join Sample.scenario
                                    (cfg_dir (Sample.config ErrExits)) x.1))
         l ∧
  walk_entries Sample.scenario (Sample.config ErrExits)
               [("a.fastq", None)] s1 = Done tt s1.
Proof.
  refine (walk_registers_then_repeats Sample.scenario
            (Sample.config ErrExits)
            [("a.fastq", Some (mkFileInfo 0 false))] [("a.fastq", None)]
            Sample.fresh
            (final_state (walk_entries Sample.scenario
                            (Sample.config ErrExits)
                            [("a.fastq", Some (mkFileInfo 0 false))]
                            Sample.fresh)) _ _ _).
  - vm_compute. reflexivity.
  - vm_compute. reflexivity.
  - intros x Hx. exact Hx.
Defined.

(** After the file of the scenario the walker reports a text file and then
    a directory. *)
Lemma walk_blocks_after_filtered_file_witness :
  let l := [("a.fastq", Some (mkFileInfo 0 false))] in
  let s1 := final_state (walk_entries Sample.scenario
                           (Sample.config ErrExits) l Sample.fresh) in
  walk_entries Sample.scenario (Sample.config ErrExits)
    (l ++ [("notes.txt", Some (mkFileInfo 10 false));
           ("run2", Some (mkFileInfo 4096 true))]) Sample.fresh
  = Blocked (with_Mutex true s1).
Proof.
  refine (walk_blocks_after_filtered_file Sample.scenario
            (Sample.config ErrExits)
            [("a.fastq", Some (mkFileInfo 0 false))] Sample.fresh
            (final_state (walk_entries Sample.scenario
                            (Sample.config ErrExits)
                            [("a.fastq", Some (mkFileInfo 0 false))]
                            Sample.fresh))
            "notes.txt" (mkFileInfo 10 false)
            ("run2", Some (mkFileInfo 4096 true)) [] _ _ _ _ _);
    vm_compute; reflexivity.
Defined.

Lemma sample_state_in_order acks : wf_registry (Sample.state acks).
Proof.
  unfold wf_registry. simpl.
  apply (registry_ok_insert_fresh _ 1 Sample.file 0%nat 20480 0).
  rewrite <- insert_empty. apply registry_ok_insert_dir, registry_ok_empty.
Qed.

Lemma sample_state2_in_order acks acks2 :
  wf_registry (Sample.state2 acks acks2).
Proof.
  unfold wf_registry. simpl.
  apply (registry_ok_insert_fresh _ 3 Sample.file2 0%nat 100 0).
  apply (registry_ok_mono _ 3); [|lia].
  apply (registry_ok_insert_fresh _ 1 Sample.file 0%nat 20480 0).
  rewrite <- insert_empty. apply registry_ok_insert_dir, registry_ok_empty.
Qed.

(** The sample state through a start, two notifications, a sweep and a
    drain pass. *)
Lemma watcher_keeps_registry_in_order_witness :
  let W := Sample.world (Some 30720) 600000000 in
  let cfg := Sample.config ErrExits in
  let st := Sample.state [StreamExited] in
  wf_registry (final_state (startup W cfg st)) ∧
  wf_registry (final_state (handle_events W cfg
                 [mkFsEvent Sample.file fsWrite;
                  mkFsEvent Sample.file fsRemove] st)) ∧
  wf_registry (final_state (on_shutdown [Sample.root; Sample.file] st)) ∧
  wf_registry (final_state (drain_pass W [(Sample.file, [PickCtrl])] st)).
Proof.
  exact (watcher_keeps_registry_in_order (Sample.world (Some 30720) 600000000)
           (Sample.config ErrExits)
           [mkFsEvent Sample.file fsWrite; mkFsEvent Sample.file fsRemove]
           [Sample.root; Sample.file] [(Sample.file, [PickCtrl])]
           (Sample.state [StreamExited])
           (sample_state_in_order [StreamExited])).
Defined.

(** A watcher that starts on the bare root, then sees [a.fastq] created
    and written to. *)
Lemma started_watcher_is_sweepable_witness :
  let events := [mkFsEvent Sample.file fsCreate;
                 mkFsEvent Sample.file fsWrite] in
  let s' := final_state ((startup Sample.scenario (Sample.config ErrExits) >>>
                          handle_events Sample.scenario
                            (Sample.config ErrExits) events) Scenes.boot) in
  map_Forall (λ _ w, has_session w) (Pool s') ∧
  NoDup (omap (session_out s') [Sample.root; Sample.file]).
Proof.
  exact (started_watcher_is_sweepable Sample.scenario (Sample.config ErrExits)
           [mkFsEvent Sample.file fsCreate; mkFsEvent Sample.file fsWrite]
           [Sample.root; Sample.file] Scenes.boot
           eq_refl ltac:(compute_done)).
Defined.

(** A truncating write, a sweep and a drain pass from the sample state. *)
Lemma handlers_release_mutex_witness :
  let W := Sample.world (Some 0) 600000000 in
  let cfg := Sample.config ErrExits in
  let st := Sample.state [StreamExited] in
  let ev := mkFsEvent Sample.file fsWrite in
  (has_op (ev_Op ev) fsCreate = false →
   is_done (handle_event W cfg ev st) = true →
   Mutex (final_state (handle_event W cfg ev st)) = false) ∧
  (is_done (on_shutdown [Sample.root; Sample.file] st) = true →
   Mutex (final_state (on_shutdown [Sample.root; Sample.file] st)) = false) ∧
  (is_done (drain_pass W [(Sample.file, [PickCtrl])] st) = true →
   Mutex (final_state (drain_pass W [(Sample.file, [PickCtrl])] st)) = false).
Proof.
  exact (handlers_release_mutex (Sample.world (Some 0) 600000000)
           (Sample.config ErrExits) (mkFsEvent Sample.file fsWrite)
           [Sample.root; Sample.file] [(Sample.file, [PickCtrl])]
           (Sample.state [StreamExited]) eq_refl).
Defined.

(** The session of the tracked file has exited on its own. *)
Lemma drain_takes_one_acknowledgment_witness :
  let W := Sample.world (Some 20480) 0 in
  let st := Sample.state [StreamExited; StreamEOF] in
  let r := drain_entry W Sample.file Sample.entry
             [PickCtrl; PickSeq (Some "r1"); PickCtrl] st in
  let s' := final_state r in
  Inbox s' = <[2%nat := [StreamEOF]]> (Inbox st) ∧
  r = Done tt s' ∧ Mutex s' = false ∧
  Pool s' = delete Sample.file (Pool st) ∧
  Trace s' = Trace st ++ [EvRecv 2 StreamExited; EvDelete Sample.file].
Proof.
  exact (drain_takes_one_acknowledgment (Sample.world (Some 20480) 0)
           (Sample.state [StreamExited; StreamEOF]) Sample.file Sample.entry
           2%nat StreamExited [StreamEOF] [PickSeq (Some "r1"); PickCtrl]
           (mkFileInfo 20480 false) eq_refl eq_refl eq_refl eq_refl).
Defined.


(** [seqkit scat /data /runs] *)
Lemma launch_without_placeholder_witness :
  ∃ ws, scat_Run ["/data"; "/runs"] = Launched ws ∧
        sp_dir <$> ws = usable_roots ["/data"; "/runs"] ∧
        ∀ i d, ["/data"; "/runs"] !! i = Some d →
               ws !! i = Some (mkSpawned i d).
Proof.
  exact (launch_without_placeholder ["/data"; "/runs"]
           ltac:(compute_done) ltac:(compute_done)).
Defined.

(** Three roots, the second retired: the first has two records waiting, the
    third one record and then its sentinel. *)
Lemma poll_roots_counts_and_prints_witness :
  let c := mkCoord [true; false; true] [true; false; true] [] in
  let picks := [[GotSeq "a"; GotSeq "b"]; [GotSeq "x"];
                [GotSeq "c"; GotCtrl watchDone]] in
  let c' := mkCoord [true; false; false] [true; false; false]
                    [(Stdout, "a"); (Stdout, "b"); (Stdout, "c")] in
  2%nat = count_live (allSeqChans c) ∧
  written c' = written c ++
    ((λ s, (Stdout, s)) <$> polled_from 0 (allSeqChans c) picks) ∧
  length (allSeqChans c') = length (allSeqChans c) ∧
  ∀ i, allSeqChans c' !! i = Some true → allSeqChans c !! i = Some true.
Proof.
  exact (poll_roots_counts_and_prints
           [[GotSeq "a"; GotSeq "b"]; [GotSeq "x"];
            [GotSeq "c"; GotCtrl watchDone]]
           (mkCoord [true; false; true] [true; false; true] []) 2%nat
           (mkCoord [true; false; false] [true; false; false]
                    [(Stdout, "a"); (Stdout, "b"); (Stdout, "c")])
           eq_refl).
Defined.

(** Both roots have retired. *)
Lemma default_turn_returns_only_when_idle_witness :
  let c := mkCoord [false; false] [false; false] [(Stdout, "a")] in
  default_turn [[GotSeq "b"]; []] c = Returned [] c ∧
  Forall (λ b, b = false) (allSeqChans c) ∧ c = c ∧ @nil nat = [].
Proof.
  split; [reflexivity|].
  exact (default_turn_returns_only_when_idle [[GotSeq "b"]; []]
           (mkCoord [false; false] [false; false] [(Stdout, "a")]) []
           (mkCoord [false; false] [false; false] [(Stdout, "a")]) eq_refl).
Defined.

(** Two roots, the second retired. *)
Lemma broadcast_clears_registries_witness :
  let roots :=
    [mkRoot true (Sample.state2 [StreamEOF; StreamExited] [StreamExited])
            [Sample.file2; Sample.root; Sample.file];
     mkRoot false (Sample.state []) []] in
  ∃ states, broadcast roots = Some states ∧
            Forall2 (λ r s, r_live r = true →
                            Pool s = ∅ ∧
                            last (Trace s) = Some (EvNotify watchDone))
                    roots states.
Proof.
  refine (broadcast_clears_registries
            [mkRoot true
               (Sample.state2 [StreamEOF; StreamExited] [StreamExited])
               [Sample.file2; Sample.root; Sample.file];
             mkRoot false (Sample.state []) []] _).
  apply Forall_cons. split.
  - intros _. simpl. split; [|split; [|split; [|split; [|split]]]];
      compute_done.
  - apply Forall_cons. split; [|apply Forall_nil_2].
    intros H. discriminate H.
Defined.

